(** * cssselect2 selector parser: a shallow embedding of [pdf/cssselect2/parser.py]

    The parser consumes a sequence of tinycss2 component values and builds
    selector trees annotated with a specificity triple.  Every function of
    the Python module is transcribed below under its own name. *)

From stdpp Require Import base option list strings gmap.

Set Warnings "-register-all".
Local Open Scope string_scope.
Local Open Scope list_scope.
Local Open Scope nat_scope.

(** ** Component values (tinycss2 tokens)

    The parser reads tokens only through [type], [value], [lower_value],
    [is_identifier], [content], [lower_name] and [arguments], and through
    comparison with a string, which tinycss2 defines for literal tokens
    alone. *)

Inductive other_kind :=
  | KNumber | KPercentage | KDimension | KUrl | KUnicodeRange
  | KAtKeyword | KParenBlock | KCurlyBlock | KError.

Inductive token :=
  | TIdent (value lower_value : string)
  | THash (value : string) (is_identifier : bool)
  | TString (value : string)
  | TLiteral (value : string)
  | TBlock (content : list token)
  | TFunction (name lower_name : string) (arguments : list token)
  | TWhitespace
  | TComment
  | TOther (kind : other_kind).

Definition other_type (k : other_kind) : string :=
  match k with
  | KNumber => "number"
  | KPercentage => "percentage"
  | KDimension => "dimension"
  | KUrl => "url"
  | KUnicodeRange => "unicode-range"
  | KAtKeyword => "at-keyword"
  | KParenBlock => "() block"
  | KCurlyBlock => "{} block"
  | KError => "error"
  end.

(** [token.type] *)
Definition type (t : token) : string :=
  match t with
  | TIdent _ _ => "ident"
  | THash _ _ => "hash"
  | TString _ => "string"
  | TLiteral _ => "literal"
  | TBlock _ => "[] block"
  | TFunction _ _ _ => "function"
  | TWhitespace => "whitespace"
  | TComment => "comment"
  | TOther k => other_type k
  end.

(** [token == s]: true only for a literal token whose value is [s]. *)
Definition tok_eq (t : token) (s : string) : bool :=
  match t with
  | TLiteral v => String.eqb v s
  | _ => false
  end.

(** [peek == s] where [peek] may be [None]. *)
Definition otok_eq (t : option token) (s : string) : bool :=
  match t with
  | Some t => tok_eq t s
  | None => false
  end.

(** [x in (s1, s2, ...)] for strings. *)
Definition str_in (x : string) (l : list string) : bool :=
  existsb (String.eqb x) l.

(** [peek in (s1, s2, ...)] for a token. *)
Definition tok_in (t : token) (l : list string) : bool :=
  existsb (tok_eq t) l.

Definition SUPPORTED_PSEUDO_ELEMENTS : list string :=
  [ "first-line"; "first-letter"; "prefix"; "postfix"; "selection";
    "target-text"; "spelling-error"; "grammar-error"; "before"; "after";
    "marker"; "placeholder"; "file-selector-button";
    "footnote-call"; "footnote-marker";
    "content"; "shadow" ].

(** ** Selector trees

    One constructor per Python class.  Python does not type the children, so
    neither does [node]: a [CombinedSelector] may hold any node on either
    side, and the shape the parser really builds is a theorem. *)

Inductive node :=
  | Selector (parsed_tree : node) (pseudo_element : option string)
  | RelativeSelector (combinator : string) (selector : node)
  | CombinedSelector (left : node) (combinator : string) (right : node)
  | CompoundSelector (simple_selectors : list node)
  | LocalNameSelector (local_name lower_local_name : string)
  | NamespaceSelector (namespace : string)
  | IDSelector (ident : string)
  | ClassSelector (class_name : string)
  | AttributeSelector (namespace : option string) (name lower_name : string)
      (operator : option string) (value : option string)
  | PseudoClassSelector (name : string)
  | FunctionalPseudoClassSelector (name : string) (arguments : list token)
  | NegationSelector (selector_list : list node)
  | RelationalSelector (selector_list : list node)
  | MatchesAnySelector (selector_list : list node)
  | SpecificityAdjustmentSelector (selector_list : list node).

(** ** Specificity *)

Definition triple : Type := nat * nat * nat.

(** Python's [>] on 3-tuples of integers: the first differing component
    decides. *)
Definition tuple_gt (x y : triple) : bool :=
  let '(a1, b1, c1) := x in
  let '(a2, b2, c2) := y in
  if negb (a1 =? a2)%nat then (a2 <? a1)%nat
  else if negb (b1 =? b2)%nat then (b2 <? b1)%nat
  else (c2 <? c1)%nat.

(** Python's [max] over a non-empty iterable: the running maximum is replaced
    only by a strictly greater item. *)
Definition py_max (first : triple) (others : list triple) : triple :=
  fold_left (fun m item => if tuple_gt item m then item else m) others first.

(** The column sums of a non-empty list of triples: [tuple(map(sum, zip(...)))]
    over the unpacked specificities. *)
Definition sum_columns (specs : list triple) : triple :=
  (list_sum (map (fun s => s.1.1) specs),
   list_sum (map (fun s => s.1.2) specs),
   list_sum (map (fun s => s.2) specs)).

Definition max_or_zero (specs : list triple) : triple :=
  match specs with
  | [] => (0, 0, 0)
  | first :: others => py_max first others
  end.

Fixpoint specificity (n : node) : triple :=
  match n with
  | Selector tree pseudo_element =>
      match pseudo_element with
      | None => specificity tree
      | Some _ => let '(a, b, c) := specificity tree in (a, b, c + 1)
      end
  | RelativeSelector _ selector => specificity selector
  | CombinedSelector left_ _ right_ =>
      let '(a1, b1, c1) := specificity left_ in
      let '(a2, b2, c2) := specificity right_ in
      (a1 + a2, b1 + b2, c1 + c2)
  | CompoundSelector simple_selectors =>
      match simple_selectors with
      | [] => (0, 0, 0)
      | _ => sum_columns (map specificity simple_selectors)
      end
  | LocalNameSelector _ _ => (0, 0, 1)
  | NamespaceSelector _ => (0, 0, 0)
  | IDSelector _ => (1, 0, 0)
  | ClassSelector _ => (0, 1, 0)
  | AttributeSelector _ _ _ _ _ => (0, 1, 0)
  | PseudoClassSelector _ => (0, 1, 0)
  | FunctionalPseudoClassSelector _ _ => (0, 1, 0)
  | NegationSelector selector_list =>
      max_or_zero (map specificity selector_list)
  | RelationalSelector selector_list =>
      max_or_zero (map specificity selector_list)
  | MatchesAnySelector selector_list =>
      max_or_zero (map specificity selector_list)
  | SpecificityAdjustmentSelector _ => (0, 0, 0)
  end.

(** [selector.pseudo_element], defined on [Selector] and, by delegation, on
    [RelativeSelector]. *)
Fixpoint pseudo_element_of (n : node) : option string :=
  match n with
  | Selector _ pseudo_element => pseudo_element
  | RelativeSelector _ selector => pseudo_element_of selector
  | _ => None
  end.

(** ** Exceptions

    [SelectorError] carries the offending token (or [None] at end of input)
    and its message; the messages are kept as constructors holding the
    interpolated values.  [AttributeError], [TypeError] and
    [UnboundLocalError] are the Python run-time errors the module can
    provoke; the [except] clauses of [parse] do not catch them.
    [FuelExhausted] belongs to the embedding only: the loops and the nested
    calls are bounded, and [parse_total] shows that the bound is never
    reached. *)

Inductive message :=
  | UnexpectedTokenType (type : string)
  | ExpectedCompoundSelector (peek_type : string)
  | ExpectedClassName (next : option token)
  | ExpectedPseudoElementName (next : option token)
  | UnsupportedPseudoElement (value : string)
  | UnexpectedToken (next : option token)
  | ExpectedAttributeName (next : option token)
  | ExpectedAttributeValue (next_type : string)
  | ExpectedAttributeOperator (peek : token)
  | ExpectedClosingBracket (type : string)
  | UndefinedNamespacePrefix (value : string)
  | ExpectedLocalName (type : string).

Inductive exn :=
  | SelectorError (tok : option token) (msg : message)
  | AttributeError
  | TypeError
  | UnboundLocalError
  | FuelExhausted.

Inductive result (A : Type) :=
  | Ok (a : A)
  | Raise (e : exn).
Arguments Ok {A} a.
Arguments Raise {A} e.

(** ** The token stream

    A [TokenStream] holds an iterator and at most one peeked token; together
    they denote the sequence of tokens not yet consumed, which is the state
    threaded through the parser ([TokenStreamObject] below makes the link).
    An exception leaves the stream where it was raised, as the Python object
    does. *)

Definition TokenStream : Type := list token.

Definition M (A : Type) : Type := TokenStream -> result A * TokenStream.

Definition ret {A} (a : A) : M A := fun s => (Ok a, s).

Definition raise {A} (e : exn) : M A := fun s => (Raise e, s).

Definition bind {A B} (m : M A) (k : A -> M B) : M B :=
  fun s =>
    match m s with
    | (Ok a, s') => k a s'
    | (Raise e, s') => (Raise e, s')
    end.

Declare Scope parser_scope.
Delimit Scope parser_scope with parser.
Notation "x <- m ;; k" := (bind m (fun x => k))
  (at level 100, m at next level, right associativity) : parser_scope.
Local Open Scope parser_scope.

Module TS.

(** [TokenStream.next] *)
Definition next : M (option token) :=
  fun s =>
    match s with
    | [] => (Ok None, [])
    | t :: s' => (Ok (Some t), s')
    end.

(** [TokenStream.peek] *)
Definition peek : M (option token) :=
  fun s => (Ok (head s), s).

(** The tokens still to be read; used to bound the loops. *)
Definition remaining : M (list token) :=
  fun s => (Ok s, s).

(** [TokenStream.skip] *)
Fixpoint skip_from (skip_types : list string) (found : bool)
    (s : TokenStream) : bool * TokenStream :=
  match s with
  | [] => (found, [])
  | peek :: s' =>
      if negb (str_in (type peek) skip_types) then (found, s)
      else skip_from skip_types true s'
  end.

Definition skip (skip_types : list string) : M bool :=
  fun s => let '(found, s') := skip_from skip_types false s in (Ok found, s').

Definition skip_whitespace : M bool := skip ["whitespace"].

Definition skip_comment : M bool := skip ["comment"].

Definition skip_whitespace_and_comment : M bool :=
  skip ["comment"; "whitespace"].

End TS.

(** The Python object itself: [tokens] is what the iterator has not produced
    yet, [peeked] the list of peeked tokens, last element on top.
    [TokenStreamObject.next] and [TokenStreamObject.peek] transcribe the two
    methods; [TokenStreamObject.denote] is the sequence the object stands
    for, and [TS.next] and [TS.peek] are shown below to act on it as the
    methods act on the object. *)
Module TokenStreamObject.

Record t := { tokens : list token; peeked : list (option token) }.

(** [TokenStream(tokens)] *)
Definition init (input : list token) : t :=
  {| tokens := input; peeked := [] |}.

(** [next(self.tokens, None)] *)
Definition iter_next (o : t) : option token * t :=
  match tokens o with
  | [] => (None, o)
  | x :: rest => (Some x, {| tokens := rest; peeked := peeked o |})
  end.

Definition next (o : t) : option token * t :=
  match last (peeked o) with
  | Some top => (top, {| tokens := tokens o; peeked := removelast (peeked o) |})
  | None => iter_next o
  end.

Definition peek (o : t) : option token * t :=
  match last (peeked o) with
  | Some top => (top, o)
  | None =>
      let '(x, o') := iter_next o in
      (x, {| tokens := tokens o'; peeked := peeked o' ++ [x] |})
  end.

(** At most one token is ever peeked, and a peeked end of input means the
    iterator is exhausted. *)
Definition wf (o : t) : Prop :=
  peeked o = []
  ∨ (∃ x, peeked o = [Some x])
  ∨ (peeked o = [None] ∧ tokens o = []).

Definition denote (o : t) : TokenStream :=
  match peeked o with
  | [Some x] => x :: tokens o
  | _ => tokens o
  end.

End TokenStreamObject.

(** The namespace mapping: a dict from a prefix, or [None] for the default
    namespace, to a namespace URL. *)
Abbreviation namespaces_t := (gmap (option string) string).

(** [token.value] of a literal token. *)
Definition literal_value (t : token) : string :=
  match t with
  | TLiteral v => v
  | _ => ""
  end.

(** [token.arguments] of a function token. *)
Definition arguments_of (t : token) : list token :=
  match t with
  | TFunction _ _ arguments => arguments
  | _ => []
  end.

(** ** [parse_qualified_name] *)

(** A qualified name: [(namespace, local)], where [local] is a pair
    [(value, lower_value)] or [None] for a wildcard. *)
Definition qname : Type := option string * option (string * string).

(** Lines 260-267: a [|] has just been consumed and [namespace] is set. *)
Definition qualified_name_local (namespace : option string)
    (is_attribute : bool) : M (option qname) :=
  next <- TS.next ;;
  match next with
  | None => raise AttributeError
  | Some (TIdent value lower_value) =>
      ret (Some (namespace, Some (value, lower_value)))
  | Some next =>
      if tok_eq next "*" && negb is_attribute then ret (Some (namespace, None))
      else raise (SelectorError (Some next) (ExpectedLocalName (type next)))
  end.

Definition parse_qualified_name (namespaces : namespaces_t)
    (is_attribute : bool) : M (option qname) :=
  peek <- TS.peek ;;
  match peek with
  | None => ret None
  | Some (TIdent value lower_value) =>
      _ <- TS.next ;;
      peek <- TS.peek ;;
      if negb (otok_eq peek "|") then
        let namespace :=
          if is_attribute then Some "" else namespaces !! (None : option string) in
        ret (Some (namespace, Some (value, lower_value)))
      else
        _ <- TS.next ;;
        match namespaces !! Some value with
        | None =>
            raise (SelectorError (Some (TIdent value lower_value))
                     (UndefinedNamespacePrefix value))
        | Some namespace => qualified_name_local (Some namespace) is_attribute
        end
  | Some peek0 =>
      if tok_eq peek0 "*" then
        next <- TS.next ;;
        peek <- TS.peek ;;
        if negb (otok_eq peek "|") then
          if is_attribute then
            raise (SelectorError next (ExpectedLocalName (type peek0)))
          else ret (Some (namespaces !! (None : option string), None))
        else
          _ <- TS.next ;;
          qualified_name_local None is_attribute
      else if tok_eq peek0 "|" then
        _ <- TS.next ;;
        qualified_name_local (Some "") is_attribute
      else ret None
  end.

(** ** [parse_attribute_selector] *)

Definition attribute_operators : list string :=
  ["="; "~="; "|="; "^="; "$="; "*="].

(** Lines 187-212: the name, and the operator and value when present. *)
Definition attribute_parts (namespaces : namespaces_t)
    : M (qname * option string * option string) :=
  _ <- TS.skip_whitespace ;;
  qualified_name <- parse_qualified_name namespaces true ;;
  match qualified_name with
  | None =>
      next <- TS.next ;;
      raise (SelectorError next (ExpectedAttributeName next))
  | Some qualified_name =>
      _ <- TS.skip_whitespace ;;
      peek <- TS.peek ;;
      match peek with
      | None => ret (qualified_name, None, None)
      | Some peek =>
          if tok_in peek attribute_operators then
            let operator := literal_value peek in
            _ <- TS.next ;;
            _ <- TS.skip_whitespace ;;
            next <- TS.next ;;
            match next with
            | Some (TIdent value _) =>
                ret (qualified_name, Some operator, Some value)
            | Some (TString value) =>
                ret (qualified_name, Some operator, Some value)
            | Some next =>
                raise (SelectorError (Some next)
                         (ExpectedAttributeValue (type next)))
            | None =>
                raise (SelectorError None (ExpectedAttributeValue "None"))
            end
          else
            raise (SelectorError (Some peek) (ExpectedAttributeOperator peek))
      end
  end.

(** [AttributeSelector.__init__] unpacks [name] into [name, lower_name]; a
    wildcard local name ([None]) cannot be unpacked, but
    [parse_qualified_name] with [is_attribute] never returns one. *)
Definition make_attribute (q : qname) (operator value : option string)
    : M node :=
  match q with
  | (namespace, Some (name, lower_name)) =>
      ret (AttributeSelector namespace name lower_name operator value)
  | (_, None) => raise TypeError
  end.

Definition parse_attribute_selector (namespaces : namespaces_t) : M node :=
  parts <- attribute_parts namespaces ;;
  let '(qualified_name, operator, value) := parts in
  _ <- TS.skip_whitespace ;;
  next <- TS.next ;;
  match next with
  | Some next =>
      raise (SelectorError (Some next) (ExpectedClosingBracket (type next)))
  | None => make_attribute qualified_name operator value
  end.

(** ** [parse_type_selector] *)

Definition parse_type_selector (namespaces : namespaces_t)
    : M (option (list node)) :=
  _ <- TS.skip_whitespace ;;
  qualified_name <- parse_qualified_name namespaces false ;;
  match qualified_name with
  | None => ret None
  | Some (namespace, local_name) =>
      let simple_selectors := [] in
      let simple_selectors :=
        match local_name with
        | Some (value, lower_value) =>
            simple_selectors ++ [LocalNameSelector value lower_value]
        | None => simple_selectors
        end in
      let simple_selectors :=
        match namespace with
        | Some namespace => simple_selectors ++ [NamespaceSelector namespace]
        | None => simple_selectors
        end in
      ret (Some simple_selectors)
  end.

(** ** The generator [parse] and the functions that re-enter it

    A run of the generator is the list of selectors it yields and the
    exception that ends it, [None] when it returns normally. *)

Definition gen : Type := list node * option exn.

Definition yield (selector : node) (g : gen) : gen := (selector :: g.1, g.2).

Definition parse_fn : Type :=
  list token -> namespaces_t -> bool -> bool -> gen.

(** The [if]/[elif] chain of [parse_logical_combination]: the values of
    [forgiving], [relative] and [selector_class] for a function name;
    [selector_class] stays unbound for any other name. *)
Definition logical_settings (name : string)
    : bool * bool * option (list node → node) :=
  if String.eqb name "is" then (true, false, Some MatchesAnySelector)
  else if String.eqb name "where" then
    (true, false, Some SpecificityAdjustmentSelector)
  else if String.eqb name "not" then (false, false, Some NegationSelector)
  else if String.eqb name "has" then (true, true, Some RelationalSelector)
  else (true, false, None).

Section Parser.

(** The call to [parse] made by [parse_logical_combination] on the argument
    tokens of a function token. *)
Variable parse_rec : parse_fn.

Definition parse_logical_combination (matches_any_token : token)
    (namespaces : namespaces_t) (name : string) : result node :=
  let '(forgiving, relative, selector_class) := logical_settings name in
  match parse_rec (arguments_of matches_any_token) namespaces forgiving
          relative with
  | (_, Some e) => Raise e
  | (yielded, None) =>
      let selectors :=
        List.filter (fun selector => bool_decide (pseudo_element_of selector = None))
          yielded in
      match selector_class with
      | Some selector_class => Ok (selector_class selectors)
      | None => Raise UnboundLocalError
      end
  end.

(** Lifts a computation that does not read the stream. *)
Definition lift {A} (r : result A) : M A := fun s => (r, s).

(** The result is the pair [(simple_selector, pseudo_element)]. *)
Definition parse_simple_selector (namespaces : namespaces_t)
    : M (option node * option string) :=
  peek <- TS.peek ;;
  match peek with
  | None => ret (None, None)
  | Some (THash value true) =>
      _ <- TS.next ;;
      ret (Some (IDSelector value), None)
  | Some (TBlock content) =>
      _ <- TS.next ;;
      attr <- lift (parse_attribute_selector namespaces content).1 ;;
      ret (Some attr, None)
  | Some peek =>
      if tok_eq peek "." then
        _ <- TS.next ;;
        next <- TS.next ;;
        match next with
        | Some (TIdent value _) => ret (Some (ClassSelector value), None)
        | _ => raise (SelectorError next (ExpectedClassName next))
        end
      else if tok_eq peek ":" then
        _ <- TS.next ;;
        next <- TS.next ;;
        if otok_eq next ":" then
          next <- TS.next ;;
          match next with
          | Some (TIdent _ lower_value) =>
              let value := lower_value in
              if negb (str_in value SUPPORTED_PSEUDO_ELEMENTS) then
                raise (SelectorError next (UnsupportedPseudoElement value))
              else ret (None, Some value)
          | _ => raise (SelectorError next (ExpectedPseudoElementName next))
          end
        else
          match next with
          | Some (TIdent _ lower_value) =>
              let name := lower_value in
              if str_in name ["before"; "after"; "first-line"; "first-letter"]
              then ret (None, Some name)
              else ret (Some (PseudoClassSelector name), None)
          | Some (TFunction fname lower_name arguments) =>
              let name := lower_name in
              if str_in name ["is"; "where"; "not"; "has"] then
                sel <- lift (parse_logical_combination
                               (TFunction fname lower_name arguments)
                               namespaces name) ;;
                ret (Some sel, None)
              else
                ret (Some (FunctionalPseudoClassSelector name arguments), None)
          | _ => raise (SelectorError next (UnexpectedToken next))
          end
      else ret (None, None)
  end.

(** The [while 1] loop of [parse_compound_selector]; it ends with the list
    built so far and the [pseudo_element] of the last call. *)
Fixpoint simple_selector_loop (fuel : nat) (namespaces : namespaces_t)
    (simple_selectors : list node) : M (list node * option string) :=
  match fuel with
  | 0 => raise FuelExhausted
  | S fuel =>
      r <- parse_simple_selector namespaces ;;
      match r with
      | (Some simple_selector, None) =>
          simple_selector_loop fuel namespaces
            (simple_selectors ++ [simple_selector])
      | (_, pseudo_element) => ret (simple_selectors, pseudo_element)
      end
  end.

Definition parse_compound_selector (namespaces : namespaces_t)
    : M (node * option string) :=
  type_selectors <- parse_type_selector namespaces ;;
  let simple_selectors := default [] type_selectors in
  s <- TS.remaining ;;
  r <- simple_selector_loop (S (length s)) namespaces simple_selectors ;;
  let '(simple_selectors, pseudo_element) := r in
  if negb (bool_decide (simple_selectors = []))
     || negb (bool_decide (type_selectors = None)
              && bool_decide (pseudo_element = None))
  then ret (CompoundSelector simple_selectors, pseudo_element)
  else
    peek <- TS.peek ;;
    let peek_type := match peek with Some peek => type peek | None => "EOF" end in
    raise (SelectorError peek (ExpectedCompoundSelector peek_type)).

(** The inner loop [while tokens.skip_comment(): ...] of [parse_selector]. *)
Fixpoint comment_loop (fuel : nat) (has_whitespace : bool) : M bool :=
  match fuel with
  | 0 => raise FuelExhausted
  | S fuel =>
      found <- TS.skip_comment ;;
      if found then
        ws <- TS.skip_whitespace ;;
        comment_loop fuel (ws || has_whitespace)
      else ret has_whitespace
  end.

(** The [while 1] loop of [parse_selector]. *)
Fixpoint selector_loop (fuel : nat) (namespaces : namespaces_t)
    (relative : bool) (initial_combinator : string)
    (result : node) (pseudo_element : option string) : M node :=
  match fuel with
  | 0 => raise FuelExhausted
  | S fuel =>
      has_whitespace <- TS.skip_whitespace ;;
      s <- TS.remaining ;;
      has_whitespace <- comment_loop (S (length s)) has_whitespace ;;
      let selector := Selector result pseudo_element in
      let selector :=
        if relative then RelativeSelector initial_combinator selector
        else selector in
      match pseudo_element with
      | Some _ => ret selector
      | None =>
          peek <- TS.peek ;;
          let continue combinator :=
            r <- parse_compound_selector namespaces ;;
            let '(compound, pseudo_element) := r in
            selector_loop fuel namespaces relative initial_combinator
              (CombinedSelector result combinator compound) pseudo_element in
          match peek with
          | None => ret selector
          | Some peek =>
              if tok_eq peek "," then ret selector
              else if tok_in peek [">"; "+"; "~"] then
                let combinator := literal_value peek in
                _ <- TS.next ;;
                continue combinator
              else if has_whitespace then continue " "
              else ret selector
          end
      end
  end.

(** When [relative] is false [initial_combinator] is never bound, and never
    read; the embedding passes a blank. *)
Definition parse_selector (namespaces : namespaces_t) (relative : bool)
    : M node :=
  _ <- TS.skip_whitespace_and_comment ;;
  initial_combinator <-
    (if relative then
       peek <- TS.peek ;;
       initial_combinator <-
         match peek with
         | Some peek =>
             if tok_in peek [">"; "+"; "~"] then
               _ <- TS.next ;; ret (literal_value peek)
             else ret " "
         | None => ret " "
         end ;;
       _ <- TS.skip_whitespace_and_comment ;;
       ret initial_combinator
     else ret " ") ;;
  r <- parse_compound_selector namespaces ;;
  let '(result, pseudo_element) := r in
  s <- TS.remaining ;;
  selector_loop (S (length s)) namespaces relative initial_combinator
    result pseudo_element.

(** The [while 1] loop of [parse]. *)
Fixpoint parse_loop (fuel : nat) (namespaces : namespaces_t)
    (forgiving relative : bool) (tokens : TokenStream) : gen :=
  match fuel with
  | 0 => ([], Some FuelExhausted)
  | S fuel =>
      match TS.next tokens with
      | (Ok (Some next), tokens) =>
          if tok_eq next "," then
            match parse_selector namespaces relative tokens with
            | (Ok selector, tokens) =>
                yield selector
                  (parse_loop fuel namespaces forgiving relative tokens)
            | (Raise (SelectorError tok msg), tokens) =>
                if negb forgiving then ([], Some (SelectorError tok msg))
                else parse_loop fuel namespaces forgiving relative tokens
            | (Raise e, _) => ([], Some e)
            end
          else if negb forgiving then
            ([], Some (SelectorError (Some next)
                         (UnexpectedTokenType (type next))))
          else parse_loop fuel namespaces forgiving relative tokens
      | (Ok None, _) => ([], None)
      | (Raise e, _) => ([], Some e)
      end
  end.

(** The body of [parse], for an input that is already a list of component
    values. *)
Definition parse_body (input : list token) (namespaces : namespaces_t)
    (forgiving relative : bool) : gen :=
  let tokens : TokenStream := input in
  match parse_selector namespaces relative tokens with
  | (Ok selector, tokens) =>
      yield selector
        (parse_loop (S (length tokens)) namespaces forgiving relative tokens)
  | (Raise (SelectorError tok msg), _) =>
      if forgiving then ([], None) else ([], Some (SelectorError tok msg))
  | (Raise e, _) => ([], Some e)
  end.

End Parser.

(** Nesting depth of function tokens and blocks. *)
Fixpoint token_depth (t : token) : nat :=
  match t with
  | TBlock content => S (foldr (fun t d => token_depth t `max` d) 0 content)
  | TFunction _ _ arguments =>
      S (foldr (fun t d => token_depth t `max` d) 0 arguments)
  | _ => 0
  end.

Definition depth (ts : list token) : nat :=
  foldr (fun t d => token_depth t `max` d) 0 ts.

(** [parse] with its re-entrant calls unfolded [d] levels deep.

    The nested calls are followed to whatever depth the input has.  CPython
    bounds the depth of its call stack and ends a run on an input nested
    beyond that bound with a [RecursionError], which no [except] clause of
    the module catches; that bound has no counterpart here, and a statement
    about a run is a statement about a run the interpreter carries through. *)
Fixpoint parse_at (d : nat) : parse_fn :=
  parse_body
    match d with
    | 0 => fun _ _ _ _ => ([], Some FuelExhausted)
    | S d => parse_at d
    end.

(** [parse(input, namespaces, forgiving, relative)] on a list of component
    values; [namespaces or {}] is left to the caller, who passes [∅] for
    [None]. *)
Definition parse (input : list token) (namespaces : namespaces_t)
    (forgiving relative : bool) : gen :=
  parse_at (depth input) input namespaces forgiving relative.

(** * Predicates and example inputs used in the statements *)

(** ** Stream discipline *)

(** A computation is [tame] when it only ever consumes tokens from the front
    of the stream and never stops for lack of fuel. *)
Definition tame {A} (m : M A) : Prop :=
  ∀ s, (m s).2 `suffix_of` s ∧ (m s).1 ≠ Raise FuelExhausted.

(** The first half of [tame]: what is left is a suffix of what was there. *)
Definition stream_mono {A} (m : M A) : Prop :=
  ∀ s, (m s).2 `suffix_of` s.

(** The second half of [tame], at one stream. *)
Definition safe_at {A} (m : M A) (s : TokenStream) : Prop :=
  (m s).1 ≠ Raise FuelExhausted.

(** Two computations that agree on every stream nested at most [k] deep. *)
Definition ext_upto (k : nat) {A} (m1 m2 : M A) : Prop :=
  ∀ s, depth s ≤ k → m1 s = m2 s.

(** The next token exists and [TokenStream.skip] would consume it. *)
Definition starts_with (skip_types : list string) (s : TokenStream) : bool :=
  match s with
  | [] => false
  | t :: _ => str_in (type t) skip_types
  end.

(** ** Specificity order *)

(** The lexicographic order on specificity triples, most significant
    component first. *)
Definition lex_lt (x y : triple) : Prop :=
  x.1.1 < y.1.1
  ∨ (x.1.1 = y.1.1 ∧ (x.1.2 < y.1.2 ∨ (x.1.2 = y.1.2 ∧ x.2 < y.2))).

Definition lex_le (x y : triple) : Prop := x = y ∨ lex_lt x y.

(** [m] is the lexicographic maximum of [specs]. *)
Definition is_lex_max (m : triple) (specs : list triple) : Prop :=
  m ∈ specs ∧ Forall (λ x, lex_le x m) specs.

(** The rule shared by [:not], [:has] and [:is]: zero on the empty list, the
    lexicographic maximum over a non-empty one. *)
Definition max_rule (selector_class : list node → node) : Prop :=
  specificity (selector_class []) = (0, 0, 0)
  ∧ ∀ first others,
      is_lex_max (specificity (selector_class (first :: others)))
        (map specificity (first :: others)).

(** ** Shapes of trees *)

(** The tree under the [Selector] and [RelativeSelector] wrappers. *)
Fixpoint parsed_tree_of (n : node) : node :=
  match n with
  | Selector tree _ => tree
  | RelativeSelector _ selector => parsed_tree_of selector
  | _ => n
  end.

(** A left-deep tree: a compound selector, or a combined selector whose
    right side is a compound selector and whose left side is left-deep. *)
Fixpoint left_deep (n : node) : bool :=
  match n with
  | CompoundSelector _ => true
  | CombinedSelector lhs _ (CompoundSelector _) => left_deep lhs
  | _ => false
  end.

(** [node.selector_list] of the four logical combinators. *)
Definition selector_list_of (n : node) : list node :=
  match n with
  | NegationSelector l | RelationalSelector l | MatchesAnySelector l
  | SpecificityAdjustmentSelector l => l
  | _ => []
  end.

(** ** Runs of the loops

    The loops of [parse_compound_selector], [parse_selector] and [parse],
    described step by step: which calls a run has made, on which streams,
    by the time it stands in front of a given stream.  The relations speak
    of the loops themselves, with [parse] for the nested calls. *)

(** Lines 64-66: the selector built at each turn of [parse_selector]'s
    loop. *)
Definition make_selector (relative : bool) (initial_combinator : string)
    (result : node) (pseudo_element : option string) : node :=
  if relative
  then RelativeSelector initial_combinator (Selector result pseudo_element)
  else Selector result pseudo_element.

(** Lines 50-58 of [parse_selector]: what comes before the first compound
    selector; the value is [initial_combinator]. *)
Definition selector_prelude (relative : bool) : M string :=
  _ <- TS.skip_whitespace_and_comment ;;
  (if relative then
     peek <- TS.peek ;;
     initial_combinator <-
       match peek with
       | Some peek =>
           if tok_in peek [">"; "+"; "~"] then
             _ <- TS.next ;; ret (literal_value peek)
           else ret " "
       | None => ret " "
       end ;;
     _ <- TS.skip_whitespace_and_comment ;;
     ret initial_combinator
   else ret " ").

(** Lines 61-63: the skipping at the head of each turn of the loop; the
    value is [has_whitespace]. *)
Definition selector_loop_head : M bool :=
  has_whitespace <- TS.skip_whitespace ;;
  s <- TS.remaining ;;
  comment_loop (S (length s)) has_whitespace.

(** Lines 69-78: after the skipping, either the loop returns the selector
    ([None]) or it goes on with a combinator and the stream on which the
    next compound selector is parsed. *)
Definition next_combinator (has_whitespace : bool) (s : TokenStream)
    : option (string * TokenStream) :=
  match head s with
  | None => None
  | Some peek =>
      if tok_eq peek "," then None
      else if tok_in peek [">"; "+"; "~"] then Some (literal_value peek, tail s)
      else if has_whitespace then Some (" ", s)
      else None
  end.

(** [simple_prefix namespaces s xs s']: starting on [s], the loop of
    [parse_compound_selector] has appended the simple selectors [xs], one
    per turn, and is about to call [parse_simple_selector] on [s']. *)
Inductive simple_prefix (namespaces : namespaces_t)
    : TokenStream → list node → TokenStream → Prop :=
  | simple_prefix_here s : simple_prefix namespaces s [] s
  | simple_prefix_step s x s1 xs s' :
      parse_simple_selector parse namespaces s = (Ok (Some x, None), s1) →
      simple_prefix namespaces s1 xs s' →
      simple_prefix namespaces s (x :: xs) s'.

(** [compound_prefix namespaces s s']: having parsed compound selectors
    from [s] on, each without pseudo-element and each followed by a
    combinator, the loop of [parse_selector] is about to call
    [parse_compound_selector] on [s']. *)
Inductive compound_prefix (namespaces : namespaces_t)
    : TokenStream → TokenStream → Prop :=
  | compound_prefix_here s : compound_prefix namespaces s s
  | compound_prefix_step s compound s1 has_whitespace s2 combinator s3 s' :
      parse_compound_selector parse namespaces s = (Ok (compound, None), s1) →
      selector_loop_head s1 = (Ok has_whitespace, s2) →
      next_combinator has_whitespace s2 = Some (combinator, s3) →
      compound_prefix namespaces s3 s' →
      compound_prefix namespaces s s'.

(** [combined_run namespaces pe s pairs pe' s']: the loop of
    [parse_selector], entered on [s] after a compound selector that gave
    the pseudo-element [pe], parses the combinators and compound selectors
    [pairs], in this order, and returns on [s'] with pseudo-element [pe']. *)
Inductive combined_run (namespaces : namespaces_t)
    : option string → TokenStream → list (string * node) → option string
      → TokenStream → Prop :=
  | combined_run_stop pe s has_whitespace s2 :
      selector_loop_head s = (Ok has_whitespace, s2) →
      is_Some pe ∨ next_combinator has_whitespace s2 = None →
      combined_run namespaces pe s [] pe s2
  | combined_run_more s has_whitespace s2 combinator s3 compound pe1 s4
      pairs pe' s' :
      selector_loop_head s = (Ok has_whitespace, s2) →
      next_combinator has_whitespace s2 = Some (combinator, s3) →
      parse_compound_selector parse namespaces s3
      = (Ok (compound, pe1), s4) →
      combined_run namespaces pe1 s4 pairs pe' s' →
      combined_run namespaces None s ((combinator, compound) :: pairs) pe' s'.

(** The tree the loop builds from the first compound selector and the
    pairs that follow: each pair goes on top, with all that came before as
    its left side. *)
Definition fold_combined (first : node) (pairs : list (string * node))
    : node :=
  fold_left (λ result p, CombinedSelector result p.1 p.2) pairs first.

(** [branch_prefix namespaces relative input ys s]: the strict [parse] of
    [input] has yielded [ys], each selector followed by a comma, and is
    about to call [parse_selector] on [s]. *)
Inductive branch_prefix (namespaces : namespaces_t) (relative : bool)
    : TokenStream → list node → TokenStream → Prop :=
  | branch_prefix_first s : branch_prefix namespaces relative s [] s
  | branch_prefix_next s selector s1 ys s' :
      parse_selector parse namespaces relative s
      = (Ok selector, TLiteral "," :: s1) →
      branch_prefix namespaces relative s1 ys s' →
      branch_prefix namespaces relative s (selector :: ys) s'.

(** ** Example inputs

    The component values tinycss2 produces for the selectors named in the
    specification. *)

Definition ident (value : string) : token := TIdent value value.

Definition lit (value : string) : token := TLiteral value.

Definition fn (name : string) (arguments : list token) : token :=
  TFunction name name arguments.

(** [.a, ???, #b] *)
Definition tokens_a_bad_b : list token :=
  [lit "."; ident "a"; lit ","; TWhitespace; lit "?"; lit "?"; lit "?";
   lit ","; TWhitespace; THash "b" true].

(** [???, #b] *)
Definition tokens_bad_b : list token :=
  [lit "?"; lit "?"; lit "?"; lit ","; TWhitespace; THash "b" true].

(** [a::before > b] *)
Definition tokens_before_child : list token :=
  [ident "a"; lit ":"; lit ":"; ident "before"; TWhitespace; lit ">";
   TWhitespace; ident "b"].

(** [a b > c] *)
Definition tokens_a_b_c : list token :=
  [ident "a"; TWhitespace; ident "b"; TWhitespace; lit ">"; TWhitespace;
   ident "c"].

(** [a b ~ c] *)
Definition tokens_a_b_sibling_c : list token :=
  [ident "a"; TWhitespace; ident "b"; TWhitespace; lit "~"; TWhitespace;
   ident "c"].

(** [a::before b] *)
Definition tokens_before_descendant : list token :=
  [ident "a"; lit ":"; lit ":"; ident "before"; TWhitespace; ident "b"].

(** [a::before.x] *)
Definition tokens_before_class : list token :=
  [ident "a"; lit ":"; lit ":"; ident "before"; lit "."; ident "x"].

(** [x, a::before > b] *)
Definition tokens_x_before_child : list token :=
  [ident "x"; lit ","; TWhitespace] ++ tokens_before_child.

(** [x, a > b.c::before b] *)
Definition tokens_x_a_bc_before_b : list token :=
  [ident "x"; lit ","; TWhitespace; ident "a"; TWhitespace; lit ">";
   TWhitespace; ident "b"; lit "."; ident "c"; lit ":"; lit ":";
   ident "before"; TWhitespace; ident "b"].

(** [.a,#b] *)
Definition tokens_a_b : list token :=
  [lit "."; ident "a"; lit ","; THash "b" true].


(** [:not(?)], a negation whose only argument branch is invalid. *)
Definition tokens_not_bad : list token := [lit ":"; fn "not" [lit "?"]].

(** [.x, a > b.c:not(.d, ?) e]: the negation comes in the second branch,
    in its second compound selector, after two simple selectors, and its
    second argument branch is invalid. *)
Definition tokens_x_a_bc_not_bad : list token :=
  [lit "."; ident "x"; lit ","; TWhitespace; ident "a"; TWhitespace; lit ">";
   TWhitespace; ident "b"; lit "."; ident "c"; lit ":";
   fn "not" [lit "."; ident "d"; lit ","; TWhitespace; lit "?"];
   TWhitespace; ident "e"].

(** [:is(.a, :not(?))] *)
Definition tokens_is_a_not_bad : list token :=
  [lit ":"; fn "is" ([lit "."; ident "a"; lit ","; TWhitespace]
                       ++ tokens_not_bad)].


(** The selectors [.a] and [#b]. *)
Definition class_a : node :=
  Selector (CompoundSelector [ClassSelector "a"]) None.

Definition id_b : node := Selector (CompoundSelector [IDSelector "b"]) None.

(** The namespace mapping [{svg: "http://www.w3.org/2000/svg"}]. *)
Definition svg_namespaces : namespaces_t :=
  {[ Some "svg" := "http://www.w3.org/2000/svg" ]}.

(** ** Predicates of the further properties *)

(** Neither a [TypeError] nor an [UnboundLocalError]. *)
Definition not_internal (e : exn) : bool :=
  match e with
  | TypeError | UnboundLocalError => false
  | _ => true
  end.

Definition clean {A} (r : result A) : Prop :=
  match r with
  | Ok _ => True
  | Raise e => not_internal e = true
  end.

Definition clean_m {A} (m : M A) : Prop := ∀ s, clean (m s).1.

Definition clean_gen (g : gen) : Prop :=
  match g.2 with
  | None => True
  | Some e => not_internal e = true
  end.

(** A whitespace or comment token. *)
Definition is_blank (t : token) : bool :=
  str_in (type t) ["comment"; "whitespace"].

(** The number of comma tokens of a stream, nested ones not counted. *)
Definition count_commas (s : list token) : nat :=
  length (List.filter (λ t, tok_eq t ",") s).

(** A pseudo-element name, when there is one, is a supported one. *)
Definition supported (pseudo_element : option string) : Prop :=
  match pseudo_element with
  | Some name => str_in name SUPPORTED_PSEUDO_ELEMENTS = true
  | None => True
  end.

(** The four combinators of [CombinedSelector] and [RelativeSelector]. *)
Definition combinators : list string := [" "; ">"; "+"; "~"].

(** The combinators along the left spine of a tree, outermost last. *)
Fixpoint combinators_of (n : node) : list string :=
  match n with
  | CombinedSelector lhs combinator _ => combinators_of lhs ++ [combinator]
  | _ => []
  end.

(** What [parse_selector] returns: a [Selector], wrapped in a
    [RelativeSelector] exactly in relative mode, with combinators among the
    four. *)
Definition selector_shape (relative : bool) (n : node) : Prop :=
  match n with
  | Selector tree _ =>
      relative = false ∧ Forall (λ c, c ∈ combinators) (combinators_of tree)
  | RelativeSelector combinator (Selector tree _) =>
      relative = true ∧ combinator ∈ combinators
      ∧ Forall (λ c, c ∈ combinators) (combinators_of tree)
  | _ => False
  end.

(** Component-wise sum of two specificities. *)
Definition triple_add (x y : triple) : triple :=
  (x.1.1 + y.1.1, x.1.2 + y.1.2, x.2 + y.2).

(** The operator and value of an attribute selector go together, and the
    operator is one of the six. *)
Definition attribute_shape (n : node) : Prop :=
  match n with
  | AttributeSelector _ _ _ None None => True
  | AttributeSelector _ _ _ (Some operator) (Some _) =>
      operator ∈ attribute_operators
  | _ => False
  end.

(** * Properties of the embedding *)

(** ** The stream object and the sequence it stands for *)

Lemma TokenStreamObject_init input :
  TokenStreamObject.wf (TokenStreamObject.init input)
  ∧ TokenStreamObject.denote (TokenStreamObject.init input) = input.
Proof. split; [by left | done]. Qed.

Lemma TokenStreamObject_next o :
  TokenStreamObject.wf o →
  TokenStreamObject.wf (TokenStreamObject.next o).2
  ∧ TS.next (TokenStreamObject.denote o)
    = (Ok (TokenStreamObject.next o).1,
       TokenStreamObject.denote (TokenStreamObject.next o).2).
Proof.
  destruct o as [toks pk].
  unfold TokenStreamObject.wf, TokenStreamObject.next,
    TokenStreamObject.iter_next, TokenStreamObject.denote. simpl.
  intros [->|[[x ->]|[-> ->]]]; simpl.
  - destruct toks as [|y rest]; simpl; (split; [by left | done]).
  - split; [by left | done].
  - split; [by left | done].
Qed.

Lemma TokenStreamObject_peek o :
  TokenStreamObject.wf o →
  TokenStreamObject.wf (TokenStreamObject.peek o).2
  ∧ TS.peek (TokenStreamObject.denote o)
    = (Ok (TokenStreamObject.peek o).1,
       TokenStreamObject.denote (TokenStreamObject.peek o).2).
Proof.
  destruct o as [toks pk].
  unfold TokenStreamObject.wf, TokenStreamObject.peek,
    TokenStreamObject.iter_next, TokenStreamObject.denote, TS.peek. simpl.
  intros [->|[[x ->]|[-> ->]]]; simpl.
  - destruct toks as [|y rest]; simpl.
    + split; [right; right; done | done].
    + split; [right; left; by eexists | done].
  - split; [right; left; by eexists | done].
  - split; [right; right; done | done].
Qed.

(** ** Stream discipline *)

Lemma tame_ret {A} (a : A) : tame (ret a).
Proof. intros s; split; [reflexivity | discriminate]. Qed.

Lemma tame_raise {A} (e : exn) : e ≠ FuelExhausted → tame (@raise A e).
Proof. intros He s; split; [reflexivity | simpl; congruence]. Qed.

Lemma tame_lift {A} (r : result A) : r ≠ Raise FuelExhausted → tame (lift r).
Proof. intros He s; split; [reflexivity | exact He]. Qed.

Lemma tame_bind {A B} (m : M A) (k : A → M B) :
  tame m → (∀ a, tame (k a)) → tame (bind m k).
Proof.
  intros Hm Hk s. unfold bind.
  destruct (Hm s) as [Hsuf Hne]. destruct (m s) as [[a|e] s1]; simpl in *.
  - destruct (Hk a s1) as [Hsuf' Hne']. split; [by etrans | done].
  - split; [done|]. intros [= ->]. by apply Hne.
Qed.

Lemma tame_next : tame TS.next.
Proof.
  intros [|t s]; split; simpl; try discriminate; [done | by apply suffix_cons_r].
Qed.

Lemma tame_peek : tame TS.peek.
Proof. intros s; split; [done | discriminate]. Qed.

Lemma tame_remaining : tame TS.remaining.
Proof. intros s; split; [done | discriminate]. Qed.

Lemma skip_from_suffix skip_types found s :
  (TS.skip_from skip_types found s).2 `suffix_of` s.
Proof.
  revert found; induction s as [|t s IH]; intros found; simpl; [done|].
  destruct (negb _); simpl; [done|]. by apply suffix_cons_r.
Qed.

Lemma tame_skip skip_types : tame (TS.skip skip_types).
Proof.
  intros s. unfold TS.skip.
  pose proof (skip_from_suffix skip_types false s) as H.
  destruct (TS.skip_from skip_types false s); simpl in *. split; [done | discriminate].
Qed.

Create HintDb tame discriminated.
#[local] Hint Resolve tame_ret tame_lift tame_next tame_peek tame_remaining
  tame_skip : tame.

Ltac tame_step :=
  match goal with
  | |- tame (bind _ _) => apply tame_bind; [| intros ?]
  | |- tame (raise _) => apply tame_raise; discriminate
  | |- tame (match ?x with _ => _ end) => destruct x
  | |- tame TS.skip_whitespace => apply tame_skip
  | |- tame TS.skip_comment => apply tame_skip
  | |- tame TS.skip_whitespace_and_comment => apply tame_skip
  | |- tame _ => solve [eauto with tame]
  end.

Ltac tame_tac := repeat tame_step.

Lemma tame_qualified_name_local namespace is_attribute :
  tame (qualified_name_local namespace is_attribute).
Proof. unfold qualified_name_local. tame_tac. Qed.

Lemma tame_parse_qualified_name namespaces is_attribute :
  tame (parse_qualified_name namespaces is_attribute).
Proof.
  unfold parse_qualified_name.
  tame_tac; auto using tame_qualified_name_local.
Qed.

Lemma tame_attribute_parts namespaces : tame (attribute_parts namespaces).
Proof.
  unfold attribute_parts. tame_tac; auto using tame_parse_qualified_name.
Qed.

Lemma tame_parse_attribute_selector namespaces :
  tame (parse_attribute_selector namespaces).
Proof.
  unfold parse_attribute_selector, make_attribute.
  tame_tac; auto using tame_attribute_parts.
Qed.

Lemma tame_parse_type_selector namespaces :
  tame (parse_type_selector namespaces).
Proof.
  unfold parse_type_selector. tame_tac; auto using tame_parse_qualified_name.
Qed.

(** Whatever [parse] does on nested arguments, the functions that re-enter
    it only consume tokens from the front of their own stream. *)

Lemma tame_stream_mono {A} (m : M A) : tame m → stream_mono m.
Proof. intros H s. apply H. Qed.

Lemma mono_raise {A} (e : exn) : stream_mono (@raise A e).
Proof. by intros s. Qed.

Lemma mono_lift {A} (r : result A) : stream_mono (lift r).
Proof. by intros s. Qed.

Lemma mono_bind {A B} (m : M A) (k : A → M B) :
  stream_mono m → (∀ a, stream_mono (k a)) → stream_mono (bind m k).
Proof.
  intros Hm Hk s. unfold bind. specialize (Hm s).
  destruct (m s) as [[a|e] s1]; simpl in *; [|done].
  etrans; [apply Hk | done].
Qed.

Lemma mono_result {A} (m : M A) s r s' :
  stream_mono m → m s = (r, s') → s' `suffix_of` s.
Proof. intros Hm Hs. specialize (Hm s). by rewrite Hs in Hm. Qed.

Ltac mono_step :=
  match goal with
  | |- stream_mono (bind _ _) => apply mono_bind; [| intros ?]
  | |- stream_mono (raise _) => apply mono_raise
  | |- stream_mono (lift _) => apply mono_lift
  | |- stream_mono (match ?x with _ => _ end) => destruct x
  | |- stream_mono _ => solve [apply tame_stream_mono; tame_tac]
  | |- stream_mono _ => solve [eauto]
  end.

Ltac mono_tac := repeat mono_step.

Section StreamMono.

Variable parse_rec : parse_fn.

Lemma mono_parse_simple_selector namespaces :
  stream_mono (parse_simple_selector parse_rec namespaces).
Proof. unfold parse_simple_selector. mono_tac. Qed.

Lemma mono_simple_selector_loop fuel namespaces simple_selectors :
  stream_mono (simple_selector_loop parse_rec fuel namespaces simple_selectors).
Proof.
  revert simple_selectors.
  induction fuel as [|fuel IH]; intros acc; simpl; mono_tac;
    auto using mono_parse_simple_selector.
Qed.

Lemma mono_parse_compound_selector namespaces :
  stream_mono (parse_compound_selector parse_rec namespaces).
Proof.
  unfold parse_compound_selector. mono_tac;
    auto using mono_simple_selector_loop, tame_stream_mono,
      tame_parse_type_selector.
Qed.

Lemma mono_comment_loop fuel has_whitespace :
  stream_mono (comment_loop fuel has_whitespace).
Proof.
  revert has_whitespace.
  induction fuel as [|fuel IH]; intros hw; simpl; mono_tac.
Qed.

Lemma mono_selector_loop fuel namespaces relative initial_combinator result
    pseudo_element :
  stream_mono (selector_loop parse_rec fuel namespaces relative
                 initial_combinator result pseudo_element).
Proof.
  revert result pseudo_element.
  induction fuel as [|fuel IH]; intros result pe; simpl; mono_tac;
    auto using mono_comment_loop, mono_parse_compound_selector.
Qed.

Lemma mono_parse_selector namespaces relative :
  stream_mono (parse_selector parse_rec namespaces relative).
Proof.
  unfold parse_selector. mono_tac;
    auto using mono_selector_loop, mono_parse_compound_selector.
Qed.

End StreamMono.

(** ** Nesting depth and the re-entrant calls *)

Lemma depth_cons t s : depth (t :: s) = token_depth t `max` depth s.
Proof. reflexivity. Qed.

Lemma depth_app s1 s2 : depth (s1 ++ s2) = depth s1 `max` depth s2.
Proof.
  induction s1 as [|t s1 IH]; [done|].
  rewrite <- app_comm_cons, !depth_cons, IH. lia.
Qed.

Lemma depth_suffix s' s : s' `suffix_of` s → depth s' ≤ depth s.
Proof. intros [p ->]. rewrite depth_app. lia. Qed.

Lemma depth_arguments fname lower_name arguments :
  token_depth (TFunction fname lower_name arguments) = S (depth arguments).
Proof. reflexivity. Qed.

Lemma ext_refl k {A} (m : M A) : ext_upto k m m.
Proof. by intros s _. Qed.

Lemma ext_bind k {A B} (m1 m2 : M A) (f1 f2 : A → M B) :
  ext_upto k m1 m2 → stream_mono m1 →
  (∀ a, ext_upto k (f1 a) (f2 a)) →
  ext_upto k (bind m1 f1) (bind m2 f2).
Proof.
  intros Hm Hmono Hf s Hs. unfold bind. rewrite <- (Hm s Hs).
  specialize (Hmono s). destruct (m1 s) as [[a|e] s1]; simpl in *; [|done].
  apply Hf. apply depth_suffix in Hmono. lia.
Qed.

Ltac ext_step :=
  match goal with
  | |- ext_upto _ (bind _ _) (bind _ _) =>
      apply ext_bind; [| solve [mono_tac] | intros ?]
  | |- ext_upto _ (match ?x with _ => _ end) (match ?x with _ => _ end) =>
      destruct x
  | |- ext_upto _ ?m ?m => apply ext_refl
  end.

Section Ext.

Variable k : nat.
Variables parse_rec1 parse_rec2 : parse_fn.
Hypothesis parse_rec_agree :
  ∀ arguments namespaces forgiving relative,
    depth arguments < k →
    parse_rec1 arguments namespaces forgiving relative
    = parse_rec2 arguments namespaces forgiving relative.

Lemma ext_parse_logical_combination tok namespaces name :
  depth (arguments_of tok) < k →
  parse_logical_combination parse_rec1 tok namespaces name
  = parse_logical_combination parse_rec2 tok namespaces name.
Proof.
  intros Hd. unfold parse_logical_combination.
  destruct (logical_settings name) as [[forgiving relative] selector_class].
  by rewrite parse_rec_agree.
Qed.

Lemma ext_parse_simple_selector namespaces :
  ext_upto k (parse_simple_selector parse_rec1 namespaces)
    (parse_simple_selector parse_rec2 namespaces).
Proof.
  intros s Hs. unfold parse_simple_selector, bind, TS.peek, TS.next.
  destruct s as [|t s]; [done|]. simpl.
  destruct t as [| ? []|?|v|?|? ? ?| | |?]; try done.
  simpl. destruct (String.eqb v "."); [done|].
  destruct (String.eqb v ":"); [|done].
  destruct s as [|t2 s]; [done|]. simpl.
  destruct (tok_eq t2 ":"); [done|].
  destruct t2; try done.
  rewrite ext_parse_logical_combination; [done|].
  simpl. rewrite !depth_cons, depth_arguments in Hs. lia.
Qed.

Lemma ext_simple_selector_loop fuel namespaces simple_selectors :
  ext_upto k
    (simple_selector_loop parse_rec1 fuel namespaces simple_selectors)
    (simple_selector_loop parse_rec2 fuel namespaces simple_selectors).
Proof.
  revert simple_selectors.
  induction fuel as [|fuel IH]; intros acc; simpl; [apply ext_refl|].
  apply ext_bind;
    [apply ext_parse_simple_selector | apply mono_parse_simple_selector |].
  intros [[x|] [pe|]]; auto using ext_refl.
Qed.

Lemma ext_parse_compound_selector namespaces :
  ext_upto k (parse_compound_selector parse_rec1 namespaces)
    (parse_compound_selector parse_rec2 namespaces).
Proof.
  unfold parse_compound_selector.
  apply ext_bind;
    [apply ext_refl | apply tame_stream_mono, tame_parse_type_selector |].
  intros type_selectors.
  apply ext_bind; [apply ext_refl | by mono_tac |]. intros s.
  apply ext_bind;
    [apply ext_simple_selector_loop | apply mono_simple_selector_loop |].
  intros r. apply ext_refl.
Qed.

Lemma ext_selector_loop fuel namespaces relative initial_combinator result
    pseudo_element :
  ext_upto k
    (selector_loop parse_rec1 fuel namespaces relative initial_combinator
       result pseudo_element)
    (selector_loop parse_rec2 fuel namespaces relative initial_combinator
       result pseudo_element).
Proof.
  revert result pseudo_element.
  induction fuel as [|fuel IH]; intros result pe; [apply ext_refl|].
  cbn [selector_loop].
  apply ext_bind; [apply ext_refl | by mono_tac |]. intros hw.
  apply ext_bind; [apply ext_refl | by mono_tac |]. intros s.
  apply ext_bind; [apply ext_refl | apply mono_comment_loop |].
  intros hw'.
  destruct pe; [apply ext_refl|].
  apply ext_bind; [apply ext_refl | by mono_tac |]. intros peek.
  cbv zeta.
  destruct peek as [peek|]; [|apply ext_refl].
  destruct (tok_eq peek ","); [apply ext_refl|].
  assert (∀ combinator,
    ext_upto k
      (bind (parse_compound_selector parse_rec1 namespaces) (λ r,
         let '(compound, pseudo_element) := r in
         selector_loop parse_rec1 fuel namespaces relative initial_combinator
           (CombinedSelector result combinator compound) pseudo_element))
      (bind (parse_compound_selector parse_rec2 namespaces) (λ r,
         let '(compound, pseudo_element) := r in
         selector_loop parse_rec2 fuel namespaces relative initial_combinator
           (CombinedSelector result combinator compound) pseudo_element)))
    as Hcont.
  { intros c. apply ext_bind;
      [apply ext_parse_compound_selector | apply mono_parse_compound_selector |].
    intros [compound pe]. apply IH. }
  destruct (tok_in peek _).
  - apply ext_bind; [apply ext_refl | by mono_tac |]. intros _. apply Hcont.
  - destruct hw'; [apply Hcont | apply ext_refl].
Qed.

Lemma ext_parse_selector namespaces relative :
  ext_upto k (parse_selector parse_rec1 namespaces relative)
    (parse_selector parse_rec2 namespaces relative).
Proof.
  unfold parse_selector.
  apply ext_bind; [apply ext_refl | by mono_tac |]. intros _.
  apply ext_bind; [apply ext_refl | by mono_tac |]. intros ic.
  apply ext_bind;
    [apply ext_parse_compound_selector | apply mono_parse_compound_selector |].
  intros [result pe].
  apply ext_bind; [apply ext_refl | by mono_tac |]. intros s.
  apply ext_selector_loop.
Qed.

Lemma ext_parse_loop fuel namespaces forgiving relative tokens :
  depth tokens ≤ k →
  parse_loop parse_rec1 fuel namespaces forgiving relative tokens
  = parse_loop parse_rec2 fuel namespaces forgiving relative tokens.
Proof.
  revert tokens. induction fuel as [|fuel IH]; intros tokens Hd;
    cbn [parse_loop]; [reflexivity|].
  destruct tokens as [|next tokens]; cbn [TS.next]; [reflexivity|].
  rewrite depth_cons in Hd.
  rewrite <- (ext_parse_selector namespaces relative tokens) by lia.
  pose proof (mono_parse_selector parse_rec1 namespaces relative tokens) as Hm.
  apply depth_suffix in Hm.
  destruct (parse_selector parse_rec1 namespaces relative tokens)
    as [[selector|e] tokens']; simpl in Hm.
  - rewrite !IH by lia. reflexivity.
  - rewrite !IH by lia. reflexivity.
Qed.

Lemma ext_parse_body input namespaces forgiving relative :
  depth input ≤ k →
  parse_body parse_rec1 input namespaces forgiving relative
  = parse_body parse_rec2 input namespaces forgiving relative.
Proof.
  intros Hd. unfold parse_body.
  rewrite <- (ext_parse_selector namespaces relative input) by lia.
  pose proof (mono_parse_selector parse_rec1 namespaces relative input) as Hm.
  apply depth_suffix in Hm.
  destruct (parse_selector parse_rec1 namespaces relative input)
    as [[selector|e] tokens']; simpl in Hm; [|reflexivity].
  rewrite ext_parse_loop by lia. reflexivity.
Qed.

End Ext.

(** Unfolding the re-entrant calls deeper than the input is nested changes
    nothing. *)
Lemma parse_at_stable d1 d2 input namespaces forgiving relative :
  depth input ≤ d1 → depth input ≤ d2 →
  parse_at d1 input namespaces forgiving relative
  = parse_at d2 input namespaces forgiving relative.
Proof.
  revert d2 input namespaces forgiving relative.
  induction d1 as [|d1 IH]; intros d2 input ns f r H1 H2.
  - destruct d2 as [|d2]; [done|]. simpl.
    apply (ext_parse_body 0); [|lia]. intros; lia.
  - destruct d2 as [|d2]; simpl.
    + apply (ext_parse_body 0); [|lia]. intros; lia.
    + apply (ext_parse_body (depth input)); [|lia].
      intros args ns' f' r' Hlt. apply IH; lia.
Qed.

(** [parse] satisfies the recursion equation of the Python generator: its
    nested calls are calls to [parse] itself. *)
Lemma parse_unfold input namespaces forgiving relative :
  parse input namespaces forgiving relative
  = parse_body parse input namespaces forgiving relative.
Proof.
  unfold parse at 1.
  destruct (depth input) as [|d] eqn:Hd; simpl.
  - apply (ext_parse_body 0); [|lia]. intros; lia.
  - apply (ext_parse_body (S d)); [|lia].
    intros args ns f r Hlt. unfold parse. apply parse_at_stable; lia.
Qed.

(** ** Progress: what a successful call consumes *)

#[local] Arguments parse_attribute_selector : simpl never.
#[local] Arguments parse_logical_combination : simpl never.

Lemma skip_from_found skip_types found s :
  (TS.skip_from skip_types found s).1 = true →
  found = true ∨ length (TS.skip_from skip_types found s).2 < length s.
Proof.
  revert found; induction s as [|t s IH]; intros found; simpl; [auto|].
  destruct (negb _); simpl; [auto|].
  intros H. destruct (IH true H) as [_|Hlt]; [|right; lia].
  right. pose proof (suffix_length _ _ (skip_from_suffix skip_types true s)).
  lia.
Qed.

Lemma skip_progress skip_types s s' :
  TS.skip skip_types s = (Ok true, s') → length s' < length s.
Proof.
  unfold TS.skip. intros H.
  pose proof (skip_from_found skip_types false s) as Hf.
  destruct (TS.skip_from skip_types false s) as [found s1]; simpl in *.
  simplify_eq. destruct Hf as [|]; [done|discriminate|done].
Qed.

Lemma parse_qualified_name_progress namespaces is_attribute s q s' :
  parse_qualified_name namespaces is_attribute s = (Ok (Some q), s') →
  length s' < length s.
Proof.
  unfold parse_qualified_name, qualified_name_local, bind, TS.peek, TS.next,
    ret, raise.
  intros H. destruct s as [|t1 s]; simpl in H; [by simplify_eq|].
  repeat (case_match; simplify_eq/=); lia.
Qed.

Lemma parse_type_selector_progress namespaces s l s' :
  parse_type_selector namespaces s = (Ok (Some l), s') →
  length s' < length s.
Proof.
  unfold parse_type_selector, bind. intros H.
  destruct (TS.skip_whitespace s) as [[ws|e] s1] eqn:Hws; [|done].
  pose proof (tame_skip ["whitespace"] s) as [Hsuf _].
  change (TS.skip ["whitespace"]) with TS.skip_whitespace in Hsuf.
  rewrite Hws in Hsuf. apply suffix_length in Hsuf. simpl in Hsuf.
  destruct (parse_qualified_name namespaces false s1) as [[[q|]|e] s2] eqn:Hq;
    [| by simplify_eq | done].
  apply parse_qualified_name_progress in Hq.
  destruct q as [ns ln]. unfold ret in H. simplify_eq. lia.
Qed.

Section Progress.

Variable parse_rec : parse_fn.

Lemma parse_simple_selector_progress namespaces s o pe s' :
  parse_simple_selector parse_rec namespaces s = (Ok (o, pe), s') →
  (o = None ∧ pe = None) ∨ length s' < length s.
Proof.
  unfold parse_simple_selector, bind, TS.peek, TS.next, ret, raise, lift.
  intros H. destruct s as [|t1 s]; simpl in H; [simplify_eq; by left|].
  repeat (case_match; simplify_eq/=); (by left) || (right; lia).
Qed.

Lemma simple_selector_loop_progress fuel namespaces acc s l pe s' :
  simple_selector_loop parse_rec fuel namespaces acc s = (Ok (l, pe), s') →
  (l = acc ∧ pe = None) ∨ length s' < length s.
Proof.
  revert acc s. induction fuel as [|fuel IH]; intros acc s; [done|].
  cbn [simple_selector_loop]. unfold bind at 1.
  destruct (parse_simple_selector parse_rec namespaces s)
    as [[[o pe1]|e] s1] eqn:Hp; [|done].
  apply parse_simple_selector_progress in Hp.
  destruct o as [x|], pe1 as [pe1|]; unfold ret; intros H.
  - simplify_eq. right. destruct Hp as [[? _]|?]; done.
  - right. apply (mono_result _ _ _ _
      (mono_simple_selector_loop parse_rec fuel namespaces _)) in H.
    apply suffix_length in H. destruct Hp as [[? _]|?]; [done | lia].
  - simplify_eq. right. destruct Hp as [[_ ?]|?]; done.
  - simplify_eq. destruct Hp as [_|?]; [by left | by right].
Qed.

Lemma parse_compound_selector_progress namespaces s r s' :
  parse_compound_selector parse_rec namespaces s = (Ok r, s') →
  length s' < length s.
Proof.
  unfold parse_compound_selector. unfold bind at 1.
  destruct (parse_type_selector namespaces s) as [[ts|e] s1] eqn:Hts; [|done].
  pose proof (tame_parse_type_selector namespaces s) as [Hsuf _].
  rewrite Hts in Hsuf. simpl in Hsuf. apply suffix_length in Hsuf.
  unfold bind at 1. unfold TS.remaining at 1. unfold bind at 1.
  destruct (simple_selector_loop parse_rec (S (length s1)) namespaces
              (default [] ts) s1) as [[[l pe]|e] s2] eqn:Hloop; [|done].
  pose proof (mono_result _ _ _ _
    (mono_simple_selector_loop parse_rec _ namespaces _) Hloop) as Hle.
  apply suffix_length in Hle.
  apply simple_selector_loop_progress in Hloop.
  assert (ts ≠ None → length s1 < length s) as Hty.
  { destruct ts as [ts|]; [|done]. intros _.
    by apply parse_type_selector_progress in Hts. }
  repeat case_bool_decide; simpl; unfold ret, bind, TS.peek, raise;
    intros ?; simplify_eq;
    try (destruct Hloop as [[? ?]|?]; [done | lia]).
  - specialize (Hty ltac:(done)). lia.
  - destruct ts as [ts|]; simpl in *.
    + specialize (Hty ltac:(done)). lia.
    + destruct Hloop as [[? ?]|?]; [done | lia].
Qed.

End Progress.

(** ** Totality: the bounds on the loops and on the nesting are never hit *)

Lemma safe_bind {A B} (m : M A) (k : A → M B) s :
  safe_at m s →
  (∀ a s', m s = (Ok a, s') → safe_at (k a) s') →
  safe_at (bind m k) s.
Proof.
  unfold safe_at, bind. intros Hm Hk.
  destruct (m s) as [[a|e] s1]; simpl in *; [by apply Hk|].
  intros [= ->]. by apply Hm.
Qed.

Lemma tame_safe {A} (m : M A) s : tame m → safe_at m s.
Proof. intros H. apply H. Qed.

Lemma comment_loop_safe fuel has_whitespace s :
  length s < fuel → safe_at (comment_loop fuel has_whitespace) s.
Proof.
  revert has_whitespace s.
  induction fuel as [|fuel IH]; intros hw s Hlt; [lia|].
  cbn [comment_loop]. apply safe_bind; [apply tame_safe, tame_skip|].
  intros [] s1 Hs1; [|done].
  apply skip_progress in Hs1.
  apply safe_bind; [apply tame_safe, tame_skip|].
  intros ws s2 Hs2. apply IH.
  apply (mono_result _ _ _ _ (tame_stream_mono _ (tame_skip _))) in Hs2.
  apply suffix_length in Hs2. lia.
Qed.

Section Safe.

Variable parse_rec : parse_fn.
Hypothesis parse_rec_safe :
  ∀ arguments namespaces forgiving relative,
    (parse_rec arguments namespaces forgiving relative).2
    ≠ Some FuelExhausted.

Lemma parse_logical_combination_safe tok namespaces name :
  parse_logical_combination parse_rec tok namespaces name
  ≠ Raise FuelExhausted.
Proof.
  unfold parse_logical_combination.
  destruct (logical_settings name) as [[forgiving relative] selector_class].
  pose proof (parse_rec_safe (arguments_of tok) namespaces forgiving relative)
    as Hs.
  destruct (parse_rec _ _ _ _) as [ys [e|]]; simpl in Hs; [congruence|].
  by destruct selector_class.
Qed.

Lemma tame_parse_simple_selector namespaces :
  tame (parse_simple_selector parse_rec namespaces).
Proof.
  unfold parse_simple_selector. tame_tac;
    apply tame_lift;
    first [apply tame_parse_attribute_selector
          | apply parse_logical_combination_safe].
Qed.

Lemma simple_selector_loop_safe fuel namespaces acc s :
  length s < fuel →
  safe_at (simple_selector_loop parse_rec fuel namespaces acc) s.
Proof.
  revert acc s. induction fuel as [|fuel IH]; intros acc s Hlt; [lia|].
  cbn [simple_selector_loop].
  apply safe_bind; [apply tame_safe, tame_parse_simple_selector|].
  intros [o pe] s1 Hs1.
  apply parse_simple_selector_progress in Hs1.
  destruct o as [x|], pe as [pe|]; try done.
  apply IH. destruct Hs1 as [[? _]|?]; [done | lia].
Qed.

Lemma parse_compound_selector_safe namespaces s :
  safe_at (parse_compound_selector parse_rec namespaces) s.
Proof.
  unfold parse_compound_selector.
  apply safe_bind; [apply tame_safe, tame_parse_type_selector|].
  intros ts s1 _.
  apply safe_bind; [done|]. intros s2 s3 [= <- <-].
  apply safe_bind; [apply simple_selector_loop_safe; lia|].
  intros [l pe] s4 _. destruct (_ || _); [done|].
  apply safe_bind; [done|]. intros peek s5 _. done.
Qed.

Lemma selector_loop_safe fuel namespaces relative initial_combinator result
    pseudo_element s :
  length s < fuel →
  safe_at (selector_loop parse_rec fuel namespaces relative
             initial_combinator result pseudo_element) s.
Proof.
  revert result pseudo_element s.
  induction fuel as [|fuel IH]; intros result pe s Hlt; [lia|].
  cbn [selector_loop].
  apply safe_bind; [apply tame_safe, tame_skip|]. intros hw s1 Hs1.
  apply (mono_result _ _ _ _ (tame_stream_mono _ (tame_skip _))) in Hs1.
  apply suffix_length in Hs1.
  apply safe_bind; [done|]. intros s2 s3 [= <- <-].
  apply safe_bind; [apply comment_loop_safe; lia|]. intros hw' s4 Hs4.
  apply (mono_result _ _ _ _ (mono_comment_loop _ _)) in Hs4.
  apply suffix_length in Hs4.
  destruct pe; [done|].
  apply safe_bind; [done|]. intros peek s5 [= <- <-].
  assert (∀ combinator s6, length s6 ≤ length s4 →
    safe_at
      (bind (parse_compound_selector parse_rec namespaces) (λ r,
         let '(compound, pseudo_element) := r in
         selector_loop parse_rec fuel namespaces relative initial_combinator
           (CombinedSelector result combinator compound) pseudo_element)) s6)
    as Hcont.
  { intros c s6 Hle.
    apply safe_bind; [apply parse_compound_selector_safe|].
    intros [compound pe] s7 Hs7.
    apply parse_compound_selector_progress in Hs7. apply IH. lia. }
  destruct (head s4) as [peek|] eqn:Hpeek; [|done].
  destruct (tok_eq peek ","); [done|].
  destruct (tok_in peek _).
  - apply safe_bind; [apply tame_safe, tame_next|]. intros nxt s6 Hs6.
    apply (mono_result _ _ _ _ (tame_stream_mono _ tame_next)) in Hs6.
    apply suffix_length in Hs6. by apply Hcont.
  - destruct hw'; [by apply Hcont | done].
Qed.

Lemma parse_selector_safe namespaces relative s :
  safe_at (parse_selector parse_rec namespaces relative) s.
Proof.
  unfold parse_selector.
  apply safe_bind; [apply tame_safe, tame_skip|]. intros ? s1 _.
  apply safe_bind; [apply tame_safe; by tame_tac|]. intros ic s2 _.
  apply safe_bind; [apply parse_compound_selector_safe|].
  intros [result pe] s3 _.
  apply safe_bind; [done|]. intros s4 s5 [= <- <-].
  apply selector_loop_safe. lia.
Qed.

Lemma parse_loop_safe fuel namespaces forgiving relative tokens :
  length tokens < fuel →
  (parse_loop parse_rec fuel namespaces forgiving relative tokens).2
  ≠ Some FuelExhausted.
Proof.
  revert tokens. induction fuel as [|fuel IH]; intros tokens Hlt; [lia|].
  cbn [parse_loop]. destruct tokens as [|next tokens]; cbn [TS.next]; [done|].
  simpl in Hlt.
  pose proof (parse_selector_safe namespaces relative tokens) as Hsafe.
  pose proof (mono_parse_selector parse_rec namespaces relative tokens) as Hm.
  unfold safe_at in Hsafe. apply suffix_length in Hm.
  destruct (parse_selector parse_rec namespaces relative tokens)
    as [[selector|e] tokens']; simpl in Hsafe, Hm.
  - destruct (tok_eq next ","); [apply IH; lia|].
    destruct (negb forgiving); [done | apply IH; lia].
  - destruct (tok_eq next ",").
    + destruct e; try done.
      destruct (negb forgiving); [done | apply IH; lia].
    + destruct (negb forgiving); [done | apply IH; lia].
Qed.

Lemma parse_body_safe input namespaces forgiving relative :
  (parse_body parse_rec input namespaces forgiving relative).2
  ≠ Some FuelExhausted.
Proof.
  unfold parse_body.
  pose proof (parse_selector_safe namespaces relative input) as Hsafe.
  unfold safe_at in Hsafe.
  destruct (parse_selector parse_rec namespaces relative input)
    as [[selector|e] tokens']; simpl in Hsafe.
  - apply parse_loop_safe. lia.
  - destruct e; try done. by destruct forgiving.
Qed.

End Safe.

(** [parse] never stops for lack of fuel: the bounds the embedding puts on
    the loops and on the nesting are never reached. *)
Theorem parse_total input namespaces forgiving relative :
  (parse input namespaces forgiving relative).2 ≠ Some FuelExhausted.
Proof.
  remember (depth input) as d eqn:Hd.
  revert input namespaces forgiving relative Hd.
  induction (lt_wf d) as [d _ IH]; intros input ns f r ->.
  rewrite parse_unfold.
  set (rec := λ args ns' f' r',
         if decide (depth args < depth input) then parse args ns' f' r'
         else ([], None) : gen).
  rewrite (ext_parse_body (depth input) parse rec); [|unfold rec|lia].
  - apply parse_body_safe. intros args ns' f' r'. unfold rec.
    case_decide; [by eapply IH | done].
  - intros args ns' f' r' Hlt. by rewrite decide_True.
Qed.

(** ** Skipping whitespace and comments *)

Lemma skip_from_stream_found skip_types found found' s :
  (TS.skip_from skip_types found s).2 = (TS.skip_from skip_types found' s).2.
Proof.
  destruct s as [|t s]; simpl; [done|]. by destruct (negb _).
Qed.

Lemma skip_from_starts skip_types found s :
  starts_with skip_types s = false →
  TS.skip_from skip_types found s = (found, s).
Proof. destruct s as [|t s]; simpl; [done|]. by intros ->. Qed.

Lemma skip_from_stops skip_types found s :
  starts_with skip_types (TS.skip_from skip_types found s).2 = false.
Proof.
  revert found; induction s as [|t s IH]; intros found; simpl; [done|].
  destruct (str_in (type t) skip_types) eqn:Ht; simpl; [apply IH | done].
Qed.

Lemma skip_from_true skip_types s :
  (TS.skip_from skip_types true s).1 = true.
Proof. induction s as [|t s IH]; simpl; [done|]. by destruct (negb _). Qed.

Lemma skip_from_not_found skip_types s :
  (TS.skip_from skip_types false s).1 = false →
  starts_with skip_types s = false.
Proof.
  destruct s as [|t s]; simpl; [done|].
  destruct (str_in (type t) skip_types); simpl; [|done].
  by rewrite skip_from_true.
Qed.

Lemma skip_from_absorb types1 types2 found found' s :
  (∀ t, str_in (type t) types1 = true → str_in (type t) types2 = true) →
  (TS.skip_from types2 found (TS.skip_from types1 found' s).2).2
  = (TS.skip_from types2 found s).2.
Proof.
  intros Hsub. revert found found'.
  induction s as [|t s IH]; intros found found'; simpl; [done|].
  destruct (str_in (type t) types1) eqn:H1; simpl.
  - rewrite (Hsub t H1). simpl. rewrite IH. apply skip_from_stream_found.
  - done.
Qed.

Lemma starts_with_comment_whitespace s :
  starts_with ["comment"; "whitespace"] s
  = starts_with ["comment"] s || starts_with ["whitespace"] s.
Proof.
  destruct s as [|t s]; [done|]. simpl. by rewrite !orb_false_r.
Qed.

(** After the first [skip_whitespace] of an iteration of [parse_selector]'s
    loop, the inner comment loop leaves the stream where a single
    [skip_whitespace_and_comment] would. *)
Lemma comment_loop_skips fuel has_whitespace s :
  length s < fuel →
  starts_with ["whitespace"] s = false →
  ∃ has_whitespace',
    comment_loop fuel has_whitespace s
    = (Ok has_whitespace', (TS.skip_whitespace_and_comment s).2).
Proof.
  revert has_whitespace s.
  induction fuel as [|fuel IH]; intros hw s Hlt Hws; [lia|].
  cbn [comment_loop]. unfold bind at 1.
  destruct (TS.skip_comment s) as [[found|e] s1] eqn:Hc;
    [|unfold TS.skip_comment, TS.skip in Hc; by destruct (TS.skip_from _ _ _)].
  assert (s1 = (TS.skip_from ["comment"] false s).2) as Hs1.
  { unfold TS.skip_comment, TS.skip in Hc.
    destruct (TS.skip_from _ _ _); by simplify_eq. }
  assert (found = (TS.skip_from ["comment"] false s).1) as Hfound.
  { unfold TS.skip_comment, TS.skip in Hc.
    destruct (TS.skip_from _ _ _); by simplify_eq. }
  unfold TS.skip_whitespace_and_comment, TS.skip.
  destruct found.
  - apply skip_progress in Hc. unfold bind at 1.
    unfold TS.skip_whitespace at 1, TS.skip at 1.
    destruct (TS.skip_from ["whitespace"] false s1) as [ws s2] eqn:Hw.
    destruct (IH (ws || hw) s2) as [hw' Hloop].
    + pose proof (skip_from_suffix ["whitespace"] false s1) as Hsuf.
      rewrite Hw in Hsuf. apply suffix_length in Hsuf. simpl in Hsuf. lia.
    + pose proof (skip_from_stops ["whitespace"] false s1) as Hst.
      by rewrite Hw in Hst.
    + exists hw'. rewrite Hloop. f_equal.
      unfold TS.skip_whitespace_and_comment, TS.skip.
      replace s2 with (TS.skip_from ["whitespace"] false s1).2
        by (by rewrite Hw).
      rewrite Hs1.
      destruct (TS.skip_from ["comment"; "whitespace"] false s) as [f3 s3]
        eqn:H3.
      destruct (TS.skip_from ["comment"; "whitespace"] false
        (TS.skip_from ["whitespace"] false
           (TS.skip_from ["comment"] false s).2).2) as [f4 s4] eqn:H4.
      simpl. transitivity (TS.skip_from ["comment"; "whitespace"] false s).2;
        [|by rewrite H3].
      rewrite <- (skip_from_absorb ["comment"] ["comment"; "whitespace"]
                    false false s).
      * rewrite <- (skip_from_absorb ["whitespace"]
                      ["comment"; "whitespace"] false false
                      (TS.skip_from ["comment"] false s).2).
        -- by rewrite H4.
        -- intros t. simpl. rewrite !orb_false_r. intros ->.
           by rewrite orb_true_r.
      * intros t. simpl. rewrite !orb_false_r. by intros ->.
  - exists hw. unfold ret.
    symmetry in Hfound. apply skip_from_not_found in Hfound.
    rewrite (skip_from_starts ["comment"] false s Hfound) in Hs1.
    simpl in Hs1. subst s1.
    rewrite skip_from_starts; [done|].
    by rewrite starts_with_comment_whitespace, Hfound, Hws.
Qed.

(** ** The loops along a run *)

Lemma bind_assoc {A B C} (m : M A) (k : A → M B) (h : B → M C) s :
  bind (bind m k) h s = bind m (λ a, bind (k a) h) s.
Proof. unfold bind. by destruct (m s) as [[a|e] s1]. Qed.

Lemma parse_selector_prelude parse_rec namespaces relative s :
  parse_selector parse_rec namespaces relative s
  = bind (selector_prelude relative)
      (λ initial_combinator,
         r <- parse_compound_selector parse_rec namespaces ;;
         let '(result, pseudo_element) := r in
         s0 <- TS.remaining ;;
         selector_loop parse_rec (S (length s0)) namespaces relative
           initial_combinator result pseudo_element) s.
Proof.
  unfold selector_prelude. rewrite bind_assoc. reflexivity.
Qed.

Lemma selector_loop_step parse_rec fuel namespaces relative initial_combinator
    result pseudo_element s :
  selector_loop parse_rec (S fuel) namespaces relative initial_combinator
    result pseudo_element s
  = match selector_loop_head s with
    | (Raise e, s2) => (Raise e, s2)
    | (Ok has_whitespace, s2) =>
        match pseudo_element with
        | Some _ =>
            (Ok (make_selector relative initial_combinator result
                   pseudo_element), s2)
        | None =>
            match next_combinator has_whitespace s2 with
            | None =>
                (Ok (make_selector relative initial_combinator result None),
                 s2)
            | Some (combinator, s3) =>
                bind (parse_compound_selector parse_rec namespaces)
                  (λ r, let '(compound, pseudo_element) := r in
                        selector_loop parse_rec fuel namespaces relative
                          initial_combinator
                          (CombinedSelector result combinator compound)
                          pseudo_element) s3
            end
        end
    end.
Proof.
  cbn [selector_loop].
  unfold selector_loop_head, next_combinator, make_selector, bind,
    TS.remaining, TS.peek, TS.next, ret.
  destruct (TS.skip_whitespace s) as [[hw|e] s1]; [|done].
  destruct (comment_loop _ _ _) as [[hw'|e] s2]; [|done].
  destruct pseudo_element as [pe|]; [done|].
  destruct s2 as [|peek s2]; [done|]. cbn [head tail].
  destruct (tok_eq peek ","); [done|].
  destruct (tok_in peek _); [done|].
  by destruct hw'.
Qed.

Lemma selector_loop_head_suffix s r s' :
  selector_loop_head s = (r, s') → s' `suffix_of` s.
Proof.
  apply mono_result. unfold selector_loop_head. mono_tac.
  apply mono_comment_loop.
Qed.

Lemma next_combinator_suffix has_whitespace s combinator s' :
  next_combinator has_whitespace s = Some (combinator, s') →
  s' `suffix_of` s ∧ combinator ∈ combinators.
Proof.
  unfold next_combinator. destruct s as [|peek s]; [done|]. cbn [head tail].
  destruct (tok_eq peek ","); [done|].
  destruct (tok_in peek _) eqn:Hin.
  - intros [= <- <-]. split; [by apply suffix_cons_r|].
    destruct peek as [| | |v| | | | |]; try discriminate Hin.
    unfold tok_in, combinators in *. simpl in *. rewrite !orb_false_r in Hin.
    repeat (apply orb_prop in Hin as [Hin|Hin];
      [apply String.eqb_eq in Hin as ->; set_solver|]).
    apply String.eqb_eq in Hin as ->. set_solver.
  - destruct has_whitespace; [|done]. intros [= <- <-].
    split; [done | set_solver].
Qed.

(** *** The loop of [parse_compound_selector] *)

Lemma simple_prefix_loop namespaces s xs s' fuel acc :
  simple_prefix namespaces s xs s' →
  length s < fuel →
  ∃ fuel',
    length s' < fuel'
    ∧ simple_selector_loop parse fuel namespaces acc s
      = simple_selector_loop parse fuel' namespaces (acc ++ xs) s'.
Proof.
  intros Hrun. revert fuel acc.
  induction Hrun as [s|s x s1 xs s' Hx _ IH]; intros fuel acc Hlt.
  - exists fuel. by rewrite app_nil_r.
  - destruct fuel as [|fuel]; [lia|].
    pose proof (parse_simple_selector_progress parse _ _ _ _ _ Hx)
      as [[? _]|Hlen]; [done|].
    destruct (IH fuel (acc ++ [x])) as (fuel' & Hlt' & Heq); [lia|].
    exists fuel'. split; [done|].
    cbn [simple_selector_loop]. unfold bind at 1. rewrite Hx.
    by rewrite Heq, <- app_assoc.
Qed.

(** The compound selector ends at the pseudo-element: when, after its type
    selector and some simple selectors, [parse_simple_selector] returns a
    pseudo-element, [parse_compound_selector] returns at once, on the
    stream that call left. *)
Lemma parse_compound_selector_pseudo_element namespaces s ts s1 xs s2 o pe
    s' :
  parse_type_selector namespaces s = (Ok ts, s1) →
  simple_prefix namespaces s1 xs s2 →
  parse_simple_selector parse namespaces s2 = (Ok (o, Some pe), s') →
  parse_compound_selector parse namespaces s
  = (Ok (CompoundSelector (default [] ts ++ xs), Some pe), s').
Proof.
  intros Hts Hrun Hpe. unfold parse_compound_selector. unfold bind at 1.
  rewrite Hts. unfold bind at 1, TS.remaining at 1. unfold bind at 1.
  destruct (simple_prefix_loop namespaces s1 xs s2 (S (length s1))
              (default [] ts) Hrun) as (fuel' & Hlt & ->); [lia|].
  destruct fuel' as [|fuel']; [lia|].
  cbn [simple_selector_loop]. unfold bind at 1. rewrite Hpe.
  destruct o; unfold ret; cbv beta iota;
    rewrite (bool_decide_eq_false_2 (Some pe = None)) by done;
    by rewrite andb_false_r, orb_true_r.
Qed.

(** An exception of [parse_simple_selector] ends the compound selector,
    wherever in the compound it is raised. *)
Lemma parse_compound_selector_raises namespaces s ts s1 xs s2 e s' :
  parse_type_selector namespaces s = (Ok ts, s1) →
  simple_prefix namespaces s1 xs s2 →
  parse_simple_selector parse namespaces s2 = (Raise e, s') →
  parse_compound_selector parse namespaces s = (Raise e, s').
Proof.
  intros Hts Hrun He. unfold parse_compound_selector. unfold bind at 1.
  rewrite Hts. unfold bind at 1, TS.remaining at 1. unfold bind at 1.
  destruct (simple_prefix_loop namespaces s1 xs s2 (S (length s1))
              (default [] ts) Hrun) as (fuel' & Hlt & ->); [lia|].
  destruct fuel' as [|fuel']; [lia|].
  cbn [simple_selector_loop]. unfold bind at 1. by rewrite He.
Qed.

(** *** The loop of [parse_selector] *)

Lemma parse_compound_selector_shape parse_rec namespaces s compound pe s' :
  parse_compound_selector parse_rec namespaces s = (Ok (compound, pe), s') →
  ∃ simple_selectors, compound = CompoundSelector simple_selectors.
Proof.
  unfold parse_compound_selector, bind, TS.remaining, TS.peek, ret, raise.
  destruct (parse_type_selector namespaces s) as [[ts|e] s1]; [|done].
  destruct (simple_selector_loop _ _ _ _ _) as [[[l pe']|e] s2]; [|done].
  destruct (_ || _); [|done]. intros [= <- <- <-]. by eexists.
Qed.

(** Once a compound has produced a pseudo-element, the loop of
    [parse_selector] skips whitespace and comments and returns, without
    looking at what follows. *)
Lemma selector_loop_pseudo_element parse_rec fuel namespaces relative
    initial_combinator result pseudo_element s :
  selector_loop parse_rec (S fuel) namespaces relative initial_combinator
    result (Some pseudo_element) s
  = (Ok (if relative
         then RelativeSelector initial_combinator
                (Selector result (Some pseudo_element))
         else Selector result (Some pseudo_element)),
     (TS.skip_whitespace_and_comment s).2).
Proof.
  cbn [selector_loop]. unfold bind at 1.
  unfold TS.skip_whitespace at 1, TS.skip at 1.
  destruct (TS.skip_from ["whitespace"] false s) as [ws s1] eqn:Hws.
  unfold bind at 1, TS.remaining at 1. unfold bind at 1.
  destruct (comment_loop_skips (S (length s1)) ws s1) as [hw' ->]; [lia| |].
  - pose proof (skip_from_stops ["whitespace"] false s) as H.
    by rewrite Hws in H.
  - unfold ret. f_equal.
    replace s1 with (TS.skip_from ["whitespace"] false s).2 by (by rewrite Hws).
    unfold TS.skip_whitespace_and_comment, TS.skip.
    pose proof (skip_from_absorb ["whitespace"] ["comment"; "whitespace"]
                  false false s) as Habs.
    destruct (TS.skip_from ["comment"; "whitespace"] false
                (TS.skip_from ["whitespace"] false s).2) as [f1 s2].
    destruct (TS.skip_from ["comment"; "whitespace"] false s) as [f2 s3].
    simpl in *. apply Habs.
    intros t. simpl. rewrite !orb_false_r. intros ->. by rewrite orb_true_r.
Qed.

Lemma selector_continue_pseudo_element namespaces relative initial_combinator
    s s' compound pe r :
  compound_prefix namespaces s s' →
  parse_compound_selector parse namespaces s' = (Ok (compound, Some pe), r) →
  ∀ fuel mk,
    length s ≤ fuel →
    ∃ result,
      bind (parse_compound_selector parse namespaces)
        (λ r0, let '(compound, pseudo_element) := r0 in
               selector_loop parse fuel namespaces relative initial_combinator
                 (mk compound) pseudo_element) s
      = (Ok (make_selector relative initial_combinator result (Some pe)),
         (TS.skip_whitespace_and_comment r).2).
Proof.
  intros Hrun He.
  induction Hrun as [s|s compound1 s1 hw s2 combinator s3 s' Hc Hhead Hnext _
                       IH]; intros fuel mk Hlen.
  - pose proof (parse_compound_selector_progress parse _ _ _ _ He) as Hlt.
    destruct fuel as [|fuel]; [lia|].
    exists (mk compound). unfold bind. rewrite He.
    apply selector_loop_pseudo_element.
  - unfold bind at 1. rewrite Hc.
    pose proof (parse_compound_selector_progress parse _ _ _ _ Hc) as Hlt.
    destruct fuel as [|fuel]; [lia|].
    rewrite selector_loop_step, Hhead, Hnext.
    apply selector_loop_head_suffix, suffix_length in Hhead.
    apply next_combinator_suffix in Hnext as [Hsuf _].
    apply suffix_length in Hsuf.
    apply (IH He fuel (λ c, CombinedSelector (mk compound1) combinator c)).
    lia.
Qed.

(** A pseudo-element ends the selector, whichever compound of the selector
    produces it: the selector is returned with the stream where the
    whitespace and the comments that follow the pseudo-element end. *)
Lemma parse_selector_pseudo_element namespaces relative s initial_combinator
    s0 s' compound pe r :
  selector_prelude relative s = (Ok initial_combinator, s0) →
  compound_prefix namespaces s0 s' →
  parse_compound_selector parse namespaces s' = (Ok (compound, Some pe), r) →
  ∃ result,
    parse_selector parse namespaces relative s
    = (Ok (make_selector relative initial_combinator result (Some pe)),
       (TS.skip_whitespace_and_comment r).2).
Proof.
  intros Hpre Hrun He. rewrite parse_selector_prelude. unfold bind at 1.
  rewrite Hpre.
  destruct Hrun as [s0|s0 compound1 s1 hw s2 combinator s3 s' Hc Hhead Hnext
                      Hrun].
  - exists compound. unfold bind at 1. rewrite He.
    unfold bind at 1, TS.remaining at 1.
    apply selector_loop_pseudo_element.
  - unfold bind at 1. rewrite Hc. unfold bind at 1, TS.remaining at 1.
    rewrite selector_loop_step, Hhead, Hnext.
    apply selector_loop_head_suffix, suffix_length in Hhead.
    apply next_combinator_suffix in Hnext as [Hsuf _].
    apply suffix_length in Hsuf.
    apply (selector_continue_pseudo_element namespaces relative
             initial_combinator s3 s' compound pe r Hrun He (length s1)
             (λ c, CombinedSelector compound1 combinator c)).
    lia.
Qed.

Lemma selector_continue_raises namespaces relative initial_combinator
    s s' e r :
  compound_prefix namespaces s s' →
  parse_compound_selector parse namespaces s' = (Raise e, r) →
  ∀ fuel mk,
    length s ≤ fuel →
    bind (parse_compound_selector parse namespaces)
      (λ r0, let '(compound, pseudo_element) := r0 in
             selector_loop parse fuel namespaces relative initial_combinator
               (mk compound) pseudo_element) s
    = (Raise e, r).
Proof.
  intros Hrun He.
  induction Hrun as [s|s compound s1 hw s2 combinator s3 s' Hc Hhead Hnext _ IH];
    intros fuel mk Hlen.
  - unfold bind. by rewrite He.
  - unfold bind at 1. rewrite Hc.
    pose proof (parse_compound_selector_progress parse _ _ _ _ Hc) as Hlt.
    destruct fuel as [|fuel]; [lia|].
    rewrite selector_loop_step, Hhead, Hnext.
    apply selector_loop_head_suffix, suffix_length in Hhead.
    apply next_combinator_suffix in Hnext as [Hsuf _].
    apply suffix_length in Hsuf.
    apply (IH He fuel (λ c, CombinedSelector (mk compound) combinator c)).
    lia.
Qed.

(** An exception of [parse_compound_selector] ends the selector, whichever
    compound of the selector raises it. *)
Lemma parse_selector_raises namespaces relative s initial_combinator s0 s'
    e r :
  selector_prelude relative s = (Ok initial_combinator, s0) →
  compound_prefix namespaces s0 s' →
  parse_compound_selector parse namespaces s' = (Raise e, r) →
  parse_selector parse namespaces relative s = (Raise e, r).
Proof.
  intros Hpre Hrun He. rewrite parse_selector_prelude. unfold bind at 1.
  rewrite Hpre.
  destruct Hrun as [s0|s0 compound s1 hw s2 combinator s3 s' Hc Hhead Hnext
                      Hrun].
  - unfold bind. by rewrite He.
  - unfold bind at 1. rewrite Hc. unfold bind at 1, TS.remaining at 1.
    rewrite selector_loop_step, Hhead, Hnext.
    apply selector_loop_head_suffix, suffix_length in Hhead.
    apply next_combinator_suffix in Hnext as [Hsuf _].
    apply suffix_length in Hsuf.
    apply (selector_continue_raises namespaces relative initial_combinator
             s3 s' e r Hrun He (length s1)
             (λ c, CombinedSelector compound combinator c)).
    lia.
Qed.

Lemma selector_loop_run namespaces relative initial_combinator fuel result
    pseudo_element s selector s' :
  selector_loop parse fuel namespaces relative initial_combinator result
    pseudo_element s = (Ok selector, s') →
  ∃ pairs pe,
    combined_run namespaces pseudo_element s pairs pe s'
    ∧ Forall (λ p, ∃ l, p.2 = CompoundSelector l) pairs
    ∧ selector
      = make_selector relative initial_combinator
          (fold_combined result pairs) pe.
Proof.
  revert result pseudo_element s.
  induction fuel as [|fuel IH]; intros result pe s; [done|].
  rewrite selector_loop_step.
  destruct (selector_loop_head s) as [[hw|e] s2] eqn:Hhead; [|done].
  destruct pe as [pe|].
  { intros [= <- <-]. exists [], (Some pe).
    split; [econstructor; eauto|]. by split. }
  destruct (next_combinator hw s2) as [[combinator s3]|] eqn:Hnext.
  - unfold bind.
    destruct (parse_compound_selector parse namespaces s3)
      as [[[compound pe1]|e] s4] eqn:Hc; [|done].
    intros Hloop. apply IH in Hloop as (pairs & pe' & Hrun & Hall & ->).
    destruct (parse_compound_selector_shape parse _ _ _ _ _ Hc) as [l ->].
    exists ((combinator, CompoundSelector l) :: pairs), pe'.
    split; [by econstructor|]. split; [|done].
    constructor; [by eexists | done].
  - intros [= <- <-]. exists [], None.
    split; [econstructor; eauto|]. by split.
Qed.

(** What [parse_selector] returns, read off the run of its loop: the first
    compound selector with the pairs of combinator and compound selector
    that follow, folded to the left. *)
Lemma parse_selector_run namespaces relative s selector s' :
  parse_selector parse namespaces relative s = (Ok selector, s') →
  ∃ initial_combinator s0 first pe0 s1 pairs pe,
    selector_prelude relative s = (Ok initial_combinator, s0)
    ∧ parse_compound_selector parse namespaces s0
      = (Ok (CompoundSelector first, pe0), s1)
    ∧ combined_run namespaces pe0 s1 pairs pe s'
    ∧ Forall (λ p, ∃ l, p.2 = CompoundSelector l) pairs
    ∧ selector
      = make_selector relative initial_combinator
          (fold_combined (CompoundSelector first) pairs) pe.
Proof.
  rewrite parse_selector_prelude. unfold bind at 1.
  destruct (selector_prelude relative s) as [[ic|e] s0]; [|done].
  unfold bind at 1.
  destruct (parse_compound_selector parse namespaces s0)
    as [[[result pe0]|e] s1] eqn:Hc; [|done].
  destruct (parse_compound_selector_shape parse _ _ _ _ _ Hc) as [first ->].
  unfold bind at 1, TS.remaining at 1. intros Hloop.
  apply selector_loop_run in Hloop as (pairs & pe & Hrun & Hall & ->).
  by exists ic, s0, first, pe0, s1, pairs, pe.
Qed.

(** *** The loop of [parse] *)

Lemma parse_loop_fuel parse_rec n m namespaces forgiving relative tokens :
  length tokens < n → length tokens < m →
  parse_loop parse_rec n namespaces forgiving relative tokens
  = parse_loop parse_rec m namespaces forgiving relative tokens.
Proof.
  revert m tokens. induction n as [|n IH]; intros m tokens Hn Hm; [lia|].
  destruct m as [|m]; [lia|]. cbn [parse_loop].
  destruct tokens as [|next tokens]; cbn [TS.next]; [reflexivity|].
  simpl in Hn, Hm.
  pose proof (mono_parse_selector parse_rec namespaces relative tokens) as Hs.
  apply suffix_length in Hs.
  destruct (parse_selector parse_rec namespaces relative tokens)
    as [[selector|e] tokens']; simpl in Hs.
  - rewrite (IH m tokens') by lia. rewrite (IH m tokens) by lia. reflexivity.
  - rewrite (IH m tokens') by lia. rewrite (IH m tokens) by lia. reflexivity.
Qed.

Lemma parse_loop_comma parse_rec fuel namespaces forgiving relative s :
  parse_loop parse_rec (S fuel) namespaces forgiving relative
    (TLiteral "," :: s)
  = match parse_selector parse_rec namespaces relative s with
    | (Ok selector, tokens) =>
        yield selector
          (parse_loop parse_rec fuel namespaces forgiving relative tokens)
    | (Raise (SelectorError tok msg), tokens) =>
        if negb forgiving then ([], Some (SelectorError tok msg))
        else parse_loop parse_rec fuel namespaces forgiving relative tokens
    | (Raise e, _) => ([], Some e)
    end.
Proof. reflexivity. Qed.

(** A strict parse whose first selector is followed by a comma yields it
    and goes on as the strict parse of what follows the comma. *)
Lemma parse_strict_comma namespaces relative s selector s1 :
  parse_selector parse namespaces relative s
  = (Ok selector, TLiteral "," :: s1) →
  parse s namespaces false relative
  = yield selector (parse s1 namespaces false relative).
Proof.
  intros Hsel. rewrite !parse_unfold. unfold parse_body at 1. rewrite Hsel.
  change (length (TLiteral "," :: s1)) with (S (length s1)).
  rewrite parse_loop_comma. unfold parse_body.
  pose proof (mono_parse_selector parse namespaces relative s1) as Hs.
  apply suffix_length in Hs.
  destruct (parse_selector parse namespaces relative s1)
    as [[selector1|e] s2]; simpl in Hs.
  - rewrite (parse_loop_fuel parse (S (length s1)) (S (length s2))) by lia.
    reflexivity.
  - by destruct e.
Qed.

(** The strict parse of an input is what it has yielded by the time it
    starts a branch, followed by the strict parse of the stream left. *)
Lemma strict_parse_from_branch namespaces relative input ys s :
  branch_prefix namespaces relative input ys s →
  parse input namespaces false relative
  = (ys ++ (parse s namespaces false relative).1,
     (parse s namespaces false relative).2).
Proof.
  induction 1 as [s|s selector s1 ys s' Hsel _ IH].
  - by destruct (parse s namespaces false relative).
  - rewrite (parse_strict_comma _ _ _ _ _ Hsel), IH. reflexivity.
Qed.

(** A strict parse ends with the exception of the first selector that
    raises one. *)
Lemma parse_strict_raises namespaces relative s e r :
  parse_selector parse namespaces relative s = (Raise e, r) →
  parse s namespaces false relative = ([], Some e).
Proof.
  intros Hsel. rewrite parse_unfold. unfold parse_body. rewrite Hsel.
  by destruct e.
Qed.

(** A strict parse whose first selector is followed by anything but a comma
    yields it and raises a [SelectorError] on the token that follows. *)
Lemma parse_strict_unexpected namespaces relative s selector t rest :
  parse_selector parse namespaces relative s = (Ok selector, t :: rest) →
  tok_eq t "," = false →
  parse s namespaces false relative
  = ([selector],
     Some (SelectorError (Some t) (UnexpectedTokenType (type t)))).
Proof.
  intros Hsel Ht. rewrite parse_unfold. unfold parse_body. rewrite Hsel.
  cbn [parse_loop length TS.next]. by rewrite Ht.
Qed.
(** * The claims *)

(** ** C1: forgiving and strict selector lists *)

(** In a forgiving parse a [SelectorError] in the first branch ends the
    generator: nothing is yielded, whatever follows. *)
Lemma parse_forgiving_first_branch input namespaces relative tok msg s :
  parse_selector parse namespaces relative input
  = (Raise (SelectorError tok msg), s) →
  parse input namespaces true relative = ([], None).
Proof. intros H. rewrite parse_unfold. unfold parse_body. by rewrite H. Qed.

(** In the loop a failing branch is skipped and the loop goes on from where
    the error left the stream. *)
Lemma parse_loop_forgiving_skips parse_rec fuel namespaces relative tokens
    tok msg s :
  parse_selector parse_rec namespaces relative tokens
  = (Raise (SelectorError tok msg), s) →
  parse_loop parse_rec (S fuel) namespaces true relative (lit "," :: tokens)
  = parse_loop parse_rec fuel namespaces true relative s.
Proof. intros H. cbn [parse_loop TS.next]. by rewrite H. Qed.

(** C1. On [.a, ???, #b] the forgiving parse yields exactly [.a] and [#b],
    and the strict parse yields [.a] and then raises the error of the second
    branch.  When the invalid branch comes first, as in [???, #b], the
    forgiving parse yields nothing at all: [#b] is lost, against the claim
    that the remaining branches are still yielded; the same happens inside
    [:is(???, #b)], whose list is empty. *)
Theorem C1_forgiving_first_branch_ends_the_list :
  parse tokens_a_bad_b ∅ true false = ([class_a; id_b], None)
  ∧ parse tokens_a_bad_b ∅ false false
    = ([class_a], Some (SelectorError (Some (lit "?"))
                          (ExpectedCompoundSelector "literal")))
  ∧ parse tokens_bad_b ∅ true false = ([], None)
  ∧ parse [lit ":"; fn "is" tokens_bad_b] ∅ false false
    = ([Selector (CompoundSelector [MatchesAnySelector []]) None], None).
Proof. repeat split; by vm_compute. Qed.

(** ** C2: nothing follows a pseudo-element *)

(** C2. A branch ends at its pseudo-element.  The compound selector that
    meets a pseudo-element returns at once, with the simple selectors
    parsed before it and the stream as the pseudo-element leaves it; the
    loop of [parse_selector] then skips whitespace and comments and returns
    without looking at what follows, whichever compound selector of the
    branch held the pseudo-element.  A strict parse that has yielded a
    selector and does not find a comma next, be it a combinator or any other
    token, raises a [SelectorError] carrying that token, in whichever branch
    of the list this happens; the last general part chains the others, from
    the pseudo-element to the exception.  So [a::before > b] yields [a::before] and
    fails on the [>] token, [a::before b] on the second [b], [a::before.x] on
    the dot, and [x, a::before > b] yields two selectors before it fails on
    the [>]. *)
Theorem C2_pseudo_element_ends_the_branch :
  (∀ namespaces s type_selectors s1 simple_selectors s2 simple_selector
     pseudo_element s',
     parse_type_selector namespaces s = (Ok type_selectors, s1) →
     simple_prefix namespaces s1 simple_selectors s2 →
     parse_simple_selector parse namespaces s2
     = (Ok (simple_selector, Some pseudo_element), s') →
     parse_compound_selector parse namespaces s
     = (Ok (CompoundSelector (default [] type_selectors ++ simple_selectors),
            Some pseudo_element), s'))
  ∧ (∀ fuel namespaces relative initial_combinator result pseudo_element s,
       selector_loop parse (S fuel) namespaces relative initial_combinator
         result (Some pseudo_element) s
       = (Ok (if relative
              then RelativeSelector initial_combinator
                     (Selector result (Some pseudo_element))
              else Selector result (Some pseudo_element)),
          (TS.skip_whitespace_and_comment s).2))
  ∧ (∀ namespaces relative s initial_combinator s0 s1 compound pseudo_element
       s2,
       selector_prelude relative s = (Ok initial_combinator, s0) →
       compound_prefix namespaces s0 s1 →
       parse_compound_selector parse namespaces s1
       = (Ok (compound, Some pseudo_element), s2) →
       ∃ result,
         parse_selector parse namespaces relative s
         = (Ok (make_selector relative initial_combinator result
                  (Some pseudo_element)),
            (TS.skip_whitespace_and_comment s2).2))
  ∧ (∀ input namespaces relative selectors s selector t rest,
       branch_prefix namespaces relative input selectors s →
       parse_selector parse namespaces relative s = (Ok selector, t :: rest) →
       tok_eq t "," = false →
       parse input namespaces false relative
       = (selectors ++ [selector],
          Some (SelectorError (Some t) (UnexpectedTokenType (type t)))))
  ∧ (∀ input namespaces relative selectors s initial_combinator s0 s1
       type_selectors s2 simple_selectors s3 simple_selector pseudo_element
       s4 t rest,
       branch_prefix namespaces relative input selectors s →
       selector_prelude relative s = (Ok initial_combinator, s0) →
       compound_prefix namespaces s0 s1 →
       parse_type_selector namespaces s1 = (Ok type_selectors, s2) →
       simple_prefix namespaces s2 simple_selectors s3 →
       parse_simple_selector parse namespaces s3
       = (Ok (simple_selector, Some pseudo_element), s4) →
       (TS.skip_whitespace_and_comment s4).2 = t :: rest →
       tok_eq t "," = false →
       ∃ result,
         parse input namespaces false relative
         = (selectors
            ++ [make_selector relative initial_combinator result
                  (Some pseudo_element)],
            Some (SelectorError (Some t) (UnexpectedTokenType (type t)))))
  ∧ parse tokens_before_child ∅ false false
    = ([Selector (CompoundSelector [LocalNameSelector "a" "a"])
          (Some "before")],
       Some (SelectorError (Some (lit ">")) (UnexpectedTokenType "literal")))
  ∧ parse tokens_before_descendant ∅ false false
    = ([Selector (CompoundSelector [LocalNameSelector "a" "a"])
          (Some "before")],
       Some (SelectorError (Some (ident "b")) (UnexpectedTokenType "ident")))
  ∧ parse tokens_before_class ∅ false false
    = ([Selector (CompoundSelector [LocalNameSelector "a" "a"])
          (Some "before")],
       Some (SelectorError (Some (lit ".")) (UnexpectedTokenType "literal")))
  ∧ parse tokens_x_before_child ∅ false false
    = ([Selector (CompoundSelector [LocalNameSelector "x" "x"]) None;
        Selector (CompoundSelector [LocalNameSelector "a" "a"])
          (Some "before")],
       Some (SelectorError (Some (lit ">")) (UnexpectedTokenType "literal"))).
Proof.
  split; [intros; by eapply parse_compound_selector_pseudo_element|].
  split; [intros; apply selector_loop_pseudo_element|].
  split; [intros; by eapply parse_selector_pseudo_element|].
  assert (∀ input namespaces relative selectors s selector t rest,
            branch_prefix namespaces relative input selectors s →
            parse_selector parse namespaces relative s
            = (Ok selector, t :: rest) →
            tok_eq t "," = false →
            parse input namespaces false relative
            = (selectors ++ [selector],
               Some (SelectorError (Some t) (UnexpectedTokenType (type t)))))
    as Hstrict.
  { intros input ns relative selectors s selector t rest Hrun Hsel Ht.
    rewrite (strict_parse_from_branch _ _ _ _ _ Hrun).
    by rewrite (parse_strict_unexpected _ _ _ _ _ _ Hsel Ht). }
  split; [exact Hstrict|].
  split; [|repeat split; by vm_compute].
  intros input ns relative selectors s ic s0 s1 ts s2 xs s3 o pe s4 t rest
    Hbranches Hpre Hcompounds Hts Hxs Hpe Hrest Ht.
  pose proof (parse_compound_selector_pseudo_element _ _ _ _ _ _ _ _ _
                Hts Hxs Hpe) as Hcompound.
  destruct (parse_selector_pseudo_element _ _ _ _ _ _ _ _ _
              Hpre Hcompounds Hcompound) as [result Hsel].
  rewrite Hrest in Hsel. exists result. by eapply Hstrict.
Qed.

(** The general parts at [x, a > b.c::before b]: the pseudo-element comes
    in the second branch, in its second compound selector, after a type
    selector and a class selector, and a descendant follows it. *)
Lemma C2_pseudo_element_ends_the_branch_witness :
  let s_branch :=
    [TWhitespace; ident "a"; TWhitespace; lit ">"; TWhitespace; ident "b";
     lit "."; ident "c"; lit ":"; lit ":"; ident "before"; TWhitespace;
     ident "b"] in
  let s_first :=
    [ident "a"; TWhitespace; lit ">"; TWhitespace; ident "b"; lit ".";
     ident "c"; lit ":"; lit ":"; ident "before"; TWhitespace; ident "b"] in
  let s_compound :=
    [TWhitespace; ident "b"; lit "."; ident "c"; lit ":"; lit ":";
     ident "before"; TWhitespace; ident "b"] in
  let s_simple :=
    [lit "."; ident "c"; lit ":"; lit ":"; ident "before"; TWhitespace;
     ident "b"] in
  let s_pseudo :=
    [lit ":"; lit ":"; ident "before"; TWhitespace; ident "b"] in
  let s_rest := [TWhitespace; ident "b"] in
  let compound :=
    CompoundSelector [LocalNameSelector "b" "b"; ClassSelector "c"] in
  let x := Selector (CompoundSelector [LocalNameSelector "x" "x"]) None in
  let selector :=
    Selector
      (CombinedSelector (CompoundSelector [LocalNameSelector "a" "a"]) ">"
         compound)
      (Some "before") in
  (parse_type_selector ∅ s_compound
   = (Ok (Some [LocalNameSelector "b" "b"]), s_simple)
   ∧ simple_prefix ∅ s_simple [ClassSelector "c"] s_pseudo
   ∧ parse_simple_selector parse ∅ s_pseudo
     = (Ok (None, Some "before"), s_rest)
   ∧ parse_compound_selector parse ∅ s_compound
     = (Ok (compound, Some "before"), s_rest))
  ∧ (selector_prelude false s_branch = (Ok " ", s_first)
     ∧ compound_prefix ∅ s_first s_compound
     ∧ ∃ result,
         parse_selector parse ∅ false s_branch
         = (Ok (make_selector false " " result (Some "before")),
            [ident "b"]))
  ∧ (branch_prefix ∅ false tokens_x_a_bc_before_b [x] s_branch
     ∧ parse_selector parse ∅ false s_branch = (Ok selector, [ident "b"])
     ∧ tok_eq (ident "b") "," = false
     ∧ parse tokens_x_a_bc_before_b ∅ false false
       = ([x; selector],
          Some (SelectorError (Some (ident "b"))
                  (UnexpectedTokenType "ident"))))
  ∧ ((TS.skip_whitespace_and_comment s_rest).2 = [ident "b"]
     ∧ ∃ result,
         parse tokens_x_a_bc_before_b ∅ false false
         = ([x] ++ [make_selector false " " result (Some "before")],
            Some (SelectorError (Some (ident "b"))
                    (UnexpectedTokenType "ident")))).
Proof.
  intros s_branch s_first s_compound s_simple s_pseudo s_rest compound x selector.
  assert (simple_prefix ∅ s_simple [ClassSelector "c"] s_pseudo) as Hsimple.
  { eapply simple_prefix_step; [by vm_compute | apply simple_prefix_here]. }
  assert (parse_compound_selector parse ∅ s_compound
          = (Ok (compound, Some "before"), s_rest)) as Hcompound.
  { exact (proj1 C2_pseudo_element_ends_the_branch ∅ s_compound
             (Some [LocalNameSelector "b" "b"]) s_simple
             [ClassSelector "c"] s_pseudo None "before" s_rest
             eq_refl Hsimple eq_refl). }
  assert (compound_prefix ∅ s_first s_compound) as Hcompounds.
  { eapply compound_prefix_step;
      [by vm_compute | by vm_compute | by vm_compute
      | apply compound_prefix_here]. }
  assert (branch_prefix ∅ false tokens_x_a_bc_before_b [x] s_branch)
    as Hbranches.
  { eapply branch_prefix_next; [by vm_compute | apply branch_prefix_first]. }
  assert (parse_selector parse ∅ false s_branch = (Ok selector, [ident "b"]))
    as Hselector by (by vm_compute).
  split; [by repeat split|].
  split.
  { split; [reflexivity|]. split; [exact Hcompounds|].
    exact (proj1 (proj2 (proj2 C2_pseudo_element_ends_the_branch))
             ∅ false s_branch " " s_first s_compound compound
             "before" s_rest eq_refl Hcompounds Hcompound). }
  split.
  { split; [exact Hbranches|]. split; [exact Hselector|].
    split; [reflexivity|].
    exact (proj1 (proj2 (proj2 (proj2 C2_pseudo_element_ends_the_branch)))
             tokens_x_a_bc_before_b ∅ false [x] s_branch selector
             (ident "b") [] Hbranches Hselector eq_refl). }
  split; [reflexivity|].
  exact (proj1 (proj2 (proj2 (proj2 (proj2
                  C2_pseudo_element_ends_the_branch))))
           tokens_x_a_bc_before_b ∅ false [x] s_branch " " s_first
           s_compound (Some [LocalNameSelector "b" "b"]) s_simple
           [ClassSelector "c"] s_pseudo None "before" s_rest (ident "b") []
           Hbranches eq_refl Hcompounds eq_refl Hsimple eq_refl eq_refl
           eq_refl).
Defined.

(** ** C3, C5: specificity *)

Lemma tuple_gt_lex_lt x y : tuple_gt x y = true ↔ lex_lt y x.
Proof.
  destruct x as [[a1 b1] c1], y as [[a2 b2] c2]. unfold tuple_gt, lex_lt.
  simpl.
  destruct (Nat.eqb_spec a1 a2), (Nat.eqb_spec b1 b2); simpl;
    rewrite Nat.ltb_lt; lia.
Qed.

Lemma tuple_gt_false_lex_le x y : tuple_gt x y = false → lex_le x y.
Proof.
  destruct x as [[a1 b1] c1], y as [[a2 b2] c2]. unfold tuple_gt, lex_le, lex_lt.
  simpl.
  destruct (Nat.eqb_spec a1 a2), (Nat.eqb_spec b1 b2); simpl;
    rewrite Nat.ltb_ge; intros H;
    try (right; lia).
  destruct (decide (c1 = c2)) as [->|]; [left; congruence | right; lia].
Qed.

Lemma lex_le_trans x y z : lex_le x y → lex_le y z → lex_le x z.
Proof.
  destruct x as [[a1 b1] c1], y as [[a2 b2] c2], z as [[a3 b3] c3].
  unfold lex_le, lex_lt. simpl.
  intros [?|?] [?|?]; simplify_eq; auto; right; lia.
Qed.

Lemma py_max_is_lex_max first others :
  is_lex_max (py_max first others) (first :: others).
Proof.
  unfold py_max.
  assert (∀ m seen,
    is_lex_max m seen →
    is_lex_max
      (fold_left (λ m item, if tuple_gt item m then item else m) others m)
      (seen ++ others)) as Hgen.
  { induction others as [|item others IH]; intros m seen Hm; simpl.
    - by rewrite app_nil_r.
    - replace (seen ++ item :: others) with ((seen ++ [item]) ++ others)
        by (by rewrite <- app_assoc).
      apply IH. destruct Hm as [Hin Hall].
      destruct (tuple_gt item m) eqn:Hgt; split.
      + set_solver.
      + apply Forall_app. split; [|constructor; [by left | constructor]].
        eapply Forall_impl; [done|]. intros x Hx. simpl in Hx.
        eapply lex_le_trans; [done|]. right. by apply tuple_gt_lex_lt.
      + set_solver.
      + apply Forall_app. split; [done|].
        constructor; [|constructor]. by apply tuple_gt_false_lex_le. }
  apply (Hgen first [first]).
  split; [set_solver | constructor; [by left | constructor]].
Qed.

(** C3. The specificity of a [NegationSelector], a [RelationalSelector] and a
    [MatchesAnySelector] is [(0, 0, 0)] when the list is empty and otherwise
    the lexicographic maximum of the specificities of the selectors in the
    list: it is the specificity of one of them and no other is greater.  The
    specificity of a [SpecificityAdjustmentSelector] is [(0, 0, 0)] whatever
    the list.  On the parsed examples: [:not(.a,#b)] and [:is(.a,#b)] have
    specificity [(1, 0, 0)], [:where(.a,#b)] has [(0, 0, 0)]. *)
Theorem C3_logical_combinator_specificity :
  max_rule NegationSelector
  ∧ max_rule RelationalSelector
  ∧ max_rule MatchesAnySelector
  ∧ (∀ selector_list,
       specificity (SpecificityAdjustmentSelector selector_list) = (0, 0, 0))
  ∧ map specificity (parse [lit ":"; fn "not" tokens_a_b] ∅ false false).1
    = [(1, 0, 0)]
  ∧ map specificity (parse [lit ":"; fn "is" tokens_a_b] ∅ false false).1
    = [(1, 0, 0)]
  ∧ map specificity (parse [lit ":"; fn "where" tokens_a_b] ∅ false false).1
    = [(0, 0, 0)].
Proof.
  assert (∀ selector_class,
    (∀ l, specificity (selector_class l) = max_or_zero (map specificity l)) →
    max_rule selector_class) as Hrule.
  { intros selector_class Heq. split; [by rewrite Heq|].
    intros first others. rewrite Heq. apply py_max_is_lex_max. }
  split; [by apply Hrule|]. split; [by apply Hrule|].
  split; [by apply Hrule|]. split; [done|].
  split; [by vm_compute|]. split; by vm_compute.
Qed.

(** C5. A [Selector] without pseudo-element has the specificity of its tree;
    with a pseudo-element the third component is one more.  A
    [CombinedSelector] has the component-wise sum of the specificities of its
    two sides.  The selector parsed from [a::before] has specificity
    [(0, 0, 2)]. *)
Theorem C5_specificity_composition :
  (∀ tree, specificity (Selector tree None) = specificity tree)
  ∧ (∀ tree pseudo_element,
       specificity (Selector tree (Some pseudo_element))
       = ((specificity tree).1.1, (specificity tree).1.2,
          (specificity tree).2 + 1))
  ∧ (∀ lhs combinator rhs,
       specificity (CombinedSelector lhs combinator rhs)
       = ((specificity lhs).1.1 + (specificity rhs).1.1,
          (specificity lhs).1.2 + (specificity rhs).1.2,
          (specificity lhs).2 + (specificity rhs).2))
  ∧ parse [ident "a"; lit ":"; lit ":"; ident "before"] ∅ false false
    = ([Selector (CompoundSelector [LocalNameSelector "a" "a"])
          (Some "before")], None)
  ∧ map specificity
      (parse [ident "a"; lit ":"; lit ":"; ident "before"] ∅ false false).1
    = [(0, 0, 2)].
Proof.
  repeat split; try by vm_compute.
  - intros tree pe. simpl. by destruct (specificity tree) as [[a b] c].
  - intros lhs c rhs. simpl.
    by destruct (specificity lhs) as [[a1 b1] c1],
      (specificity rhs) as [[a2 b2] c2].
Qed.

(** ** C4: the arguments of [:not()] *)

(** [:not()] hands its arguments to a strict, absolute [parse]. *)
Lemma parse_logical_combination_not tok namespaces :
  parse_logical_combination parse tok namespaces "not"
  = match parse (arguments_of tok) namespaces false false with
    | (_, Some e) => Raise e
    | (yielded, None) =>
        Ok (NegationSelector
              (List.filter
                 (λ selector, bool_decide (pseudo_element_of selector = None))
                 yielded))
    end.
Proof. reflexivity. Qed.

(** The argument list of [:not(?)] is invalid, and yet the parse of
    [:is(.a, :not(?))] succeeds, strict at top level: the forgiving list of
    [:is()] drops the branch that holds the [:not()]. *)
Lemma C4_counterexample :
  parse [lit "?"] ∅ false false
  = ([], Some (SelectorError (Some (lit "?"))
                 (ExpectedCompoundSelector "literal")))
  ∧ parse tokens_is_a_not_bad ∅ false false
    = ([Selector (CompoundSelector [MatchesAnySelector [class_a]]) None],
       None).
Proof. split; by vm_compute. Qed.

(** C4, amended. The argument list of [:not()] is parsed in strict mode
    whatever the mode of the parse that reaches it: the strict parse of the
    arguments ends with the exception of their first branch that raises one.
    When it does, [parse_logical_combination] raises that exception, and so
    do the simple selector, the compound selector and the selector that hold
    the [:not()], whatever type selector and simple selectors come before it
    in its compound selector and whatever compound selectors and combinators
    come before that in its selector; a strict enclosing parse that gets to
    this selector ends with that exception, after the selectors of the
    branches before.  What an enclosing forgiving list does with it is the
    business of that list, which catches a [SelectorError] of any origin. *)
Theorem C4_not_arguments_are_strict :
  (∀ arguments namespaces selectors s e r,
     branch_prefix namespaces false arguments selectors s →
     parse_selector parse namespaces false s = (Raise e, r) →
     parse arguments namespaces false false = (selectors, Some e))
  ∧ (∀ fname arguments namespaces yielded e rest,
       parse arguments namespaces false false = (yielded, Some e) →
       let s_not := lit ":" :: TFunction fname "not" arguments :: rest in
       parse_logical_combination parse (TFunction fname "not" arguments)
         namespaces "not" = Raise e
       ∧ parse_simple_selector parse namespaces s_not = (Raise e, rest)
       ∧ (∀ fuel simple_selectors,
            simple_selector_loop parse (S fuel) namespaces simple_selectors
              s_not
            = (Raise e, rest))
       ∧ (∀ s type_selectors s1 simple_selectors,
            parse_type_selector namespaces s = (Ok type_selectors, s1) →
            simple_prefix namespaces s1 simple_selectors s_not →
            parse_compound_selector parse namespaces s = (Raise e, rest))
       ∧ (∀ relative s initial_combinator s0 s1 type_selectors s2
            simple_selectors,
            selector_prelude relative s = (Ok initial_combinator, s0) →
            compound_prefix namespaces s0 s1 →
            parse_type_selector namespaces s1 = (Ok type_selectors, s2) →
            simple_prefix namespaces s2 simple_selectors s_not →
            parse_selector parse namespaces relative s = (Raise e, rest))
       ∧ (∀ relative input selectors s initial_combinator s0 s1
            type_selectors s2 simple_selectors,
            branch_prefix namespaces relative input selectors s →
            selector_prelude relative s = (Ok initial_combinator, s0) →
            compound_prefix namespaces s0 s1 →
            parse_type_selector namespaces s1 = (Ok type_selectors, s2) →
            simple_prefix namespaces s2 simple_selectors s_not →
            parse input namespaces false relative = (selectors, Some e))
       ∧ (∀ relative,
            parse_selector parse namespaces relative s_not = (Raise e, rest))
       ∧ (∀ relative,
            parse s_not namespaces false relative = ([], Some e))).
Proof.
  assert (∀ namespaces relative input selectors s e r,
            branch_prefix namespaces relative input selectors s →
            parse_selector parse namespaces relative s = (Raise e, r) →
            parse input namespaces false relative = (selectors, Some e))
    as Hstrict.
  { intros ns relative input selectors s e r Hrun Hsel.
    rewrite (strict_parse_from_branch _ _ _ _ _ Hrun).
    rewrite (parse_strict_raises _ _ _ _ _ Hsel). simpl.
    by rewrite app_nil_r. }
  split; [intros; by eapply Hstrict|].
  intros fname arguments namespaces yielded e rest Hargs s_not.
  assert (parse_logical_combination parse (TFunction fname "not" arguments)
            namespaces "not" = Raise e) as Hplc.
  { rewrite parse_logical_combination_not. simpl. by rewrite Hargs. }
  assert (parse_simple_selector parse namespaces s_not = (Raise e, rest))
    as Hpss.
  { unfold s_not, parse_simple_selector, bind, TS.peek, TS.next, lift. simpl.
    by rewrite Hplc. }
  assert (∀ s type_selectors s1 simple_selectors,
            parse_type_selector namespaces s = (Ok type_selectors, s1) →
            simple_prefix namespaces s1 simple_selectors s_not →
            parse_compound_selector parse namespaces s = (Raise e, rest))
    as Hcompound.
  { intros s ts s1 xs Hts Hxs.
    by eapply parse_compound_selector_raises. }
  assert (∀ relative s initial_combinator s0 s1 type_selectors s2
            simple_selectors,
            selector_prelude relative s = (Ok initial_combinator, s0) →
            compound_prefix namespaces s0 s1 →
            parse_type_selector namespaces s1 = (Ok type_selectors, s2) →
            simple_prefix namespaces s2 simple_selectors s_not →
            parse_selector parse namespaces relative s = (Raise e, rest))
    as Hselector.
  { intros relative s ic s0 s1 ts s2 xs Hpre Hrun Hts Hxs.
    eapply parse_selector_raises; [exact Hpre | exact Hrun |].
    by eapply Hcompound. }
  assert (∀ relative,
            parse_selector parse namespaces relative s_not = (Raise e, rest))
    as Hhere.
  { intros relative.
    apply (Hselector relative s_not " " s_not s_not None s_not []);
      [by destruct relative | constructor | done | constructor]. }
  split; [done|]. split; [done|].
  split.
  { intros fuel acc. cbn [simple_selector_loop]. unfold bind.
    by rewrite Hpss. }
  split; [done|]. split; [done|].
  split.
  { intros relative input selectors s ic s0 s1 ts s2 xs Hbranches Hpre Hrun
      Hts Hxs.
    eapply Hstrict; [exact Hbranches|]. by eapply Hselector. }
  split; [done|].
  intros relative. by eapply (Hstrict _ _ _ [] s_not), Hhere; constructor.
Qed.

(** The theorem at [.x, a > b.c:not(.d, ?) e]. *)
Lemma C4_not_arguments_are_strict_witness :
  let arguments := [lit "."; ident "d"; lit ","; TWhitespace; lit "?"] in
  let d := Selector (CompoundSelector [ClassSelector "d"]) None in
  let x := Selector (CompoundSelector [ClassSelector "x"]) None in
  let e :=
    SelectorError (Some (lit "?")) (ExpectedCompoundSelector "literal") in
  let rest := [TWhitespace; ident "e"] in
  let s_not := lit ":" :: fn "not" arguments :: rest in
  let s_simple := lit "." :: ident "c" :: s_not in
  let s_compound := TWhitespace :: ident "b" :: s_simple in
  let s_first := ident "a" :: TWhitespace :: lit ">" :: s_compound in
  let s_branch := TWhitespace :: s_first in
  (branch_prefix ∅ false arguments [d] [TWhitespace; lit "?"]
   ∧ parse_selector parse ∅ false [TWhitespace; lit "?"]
     = (Raise e, [lit "?"])
   ∧ parse arguments ∅ false false = ([d], Some e))
  ∧ (parse_type_selector ∅ s_compound
     = (Ok (Some [LocalNameSelector "b" "b"]), s_simple)
     ∧ simple_prefix ∅ s_simple [ClassSelector "c"] s_not
     ∧ parse_compound_selector parse ∅ s_compound = (Raise e, rest))
  ∧ (selector_prelude false s_branch = (Ok " ", s_first)
     ∧ compound_prefix ∅ s_first s_compound
     ∧ parse_selector parse ∅ false s_branch = (Raise e, rest))
  ∧ (branch_prefix ∅ false tokens_x_a_bc_not_bad [x] s_branch
     ∧ parse tokens_x_a_bc_not_bad ∅ false false = ([x], Some e)).
Proof.
  intros arguments d x e rest s_not s_simple s_compound s_first s_branch.
  assert (branch_prefix ∅ false arguments [d] [TWhitespace; lit "?"])
    as Hbranches_not.
  { eapply branch_prefix_next; [by vm_compute | apply branch_prefix_first]. }
  assert (parse_selector parse ∅ false [TWhitespace; lit "?"]
          = (Raise e, [lit "?"])) as Hbad by (by vm_compute).
  assert (parse arguments ∅ false false = ([d], Some e)) as Hargs.
  { exact (proj1 C4_not_arguments_are_strict arguments ∅ [d]
             [TWhitespace; lit "?"] e [lit "?"] Hbranches_not Hbad). }
  pose proof (proj2 C4_not_arguments_are_strict "not" arguments ∅ [d] e rest
                Hargs) as (_ & _ & _ & Hcompound & Hselector & Hparse & _).
  assert (simple_prefix ∅ s_simple [ClassSelector "c"] s_not) as Hsimple.
  { eapply simple_prefix_step; [by vm_compute | apply simple_prefix_here]. }
  assert (compound_prefix ∅ s_first s_compound) as Hcompounds.
  { eapply compound_prefix_step;
      [by vm_compute | by vm_compute | by vm_compute
      | apply compound_prefix_here]. }
  assert (branch_prefix ∅ false tokens_x_a_bc_not_bad [x] s_branch)
    as Hbranches.
  { eapply branch_prefix_next; [by vm_compute | apply branch_prefix_first]. }
  split; [by repeat split|].
  split.
  { split; [reflexivity|]. split; [exact Hsimple|].
    exact (Hcompound s_compound (Some [LocalNameSelector "b" "b"]) s_simple
             [ClassSelector "c"] eq_refl Hsimple). }
  split.
  { split; [reflexivity|]. split; [exact Hcompounds|].
    exact (Hselector false s_branch " " s_first s_compound
             (Some [LocalNameSelector "b" "b"]) s_simple [ClassSelector "c"]
             eq_refl Hcompounds eq_refl Hsimple). }
  split; [exact Hbranches|].
  exact (Hparse false tokens_x_a_bc_not_bad [x] s_branch " " s_first
           s_compound (Some [LocalNameSelector "b" "b"]) s_simple
           [ClassSelector "c"] Hbranches eq_refl Hcompounds eq_refl Hsimple).
Defined.

(** ** C6: the shape of combined selectors *)

Section LeftDeep.

Variable parse_rec : parse_fn.

Lemma selector_loop_left_deep fuel namespaces relative initial_combinator
    result pseudo_element s selector s' :
  left_deep result = true →
  selector_loop parse_rec fuel namespaces relative initial_combinator result
    pseudo_element s = (Ok selector, s') →
  left_deep (parsed_tree_of selector) = true.
Proof.
  revert result pseudo_element s.
  induction fuel as [|fuel IH]; intros result pe s Hld; [done|].
  cbn [selector_loop]. unfold bind at 1.
  destruct (TS.skip_whitespace s) as [[hw|e] s1]; [|done].
  unfold bind at 1, TS.remaining at 1. unfold bind at 1.
  destruct (comment_loop _ _ _) as [[hw'|e] s2]; [|done].
  assert (left_deep (parsed_tree_of
            (if relative
             then RelativeSelector initial_combinator (Selector result pe)
             else Selector result pe)) = true) as Hret
    by (by destruct relative).
  destruct pe as [pe|]; [by intros [= <- <-]|].
  unfold bind at 1, TS.peek at 1.
  assert (∀ combinator s3,
    bind (parse_compound_selector parse_rec namespaces) (λ r,
      let '(compound, pseudo_element) := r in
      selector_loop parse_rec fuel namespaces relative initial_combinator
        (CombinedSelector result combinator compound) pseudo_element) s3
    = (Ok selector, s') →
    left_deep (parsed_tree_of selector) = true) as Hcont.
  { intros c s3. unfold bind.
    destruct (parse_compound_selector parse_rec namespaces s3)
      as [[[compound pe]|e] s4] eqn:Hc; [|done].
    apply parse_compound_selector_shape in Hc as [l ->].
    apply IH. done. }
  destruct (head s2) as [peek|]; [|by intros [= <- <-]].
  destruct (tok_eq peek ","); [by intros [= <- <-]|].
  destruct (tok_in peek _).
  - unfold bind at 1. destruct (TS.next s2) as [[nxt|e] s3]; [|done].
    apply Hcont.
  - destruct hw'; [apply Hcont | by intros [= <- <-]].
Qed.

Lemma parse_selector_left_deep namespaces relative s selector s' :
  parse_selector parse_rec namespaces relative s = (Ok selector, s') →
  left_deep (parsed_tree_of selector) = true.
Proof.
  unfold parse_selector. unfold bind at 1.
  destruct (TS.skip_whitespace_and_comment s) as [[ws|e] s1]; [|done].
  unfold bind at 1.
  match goal with
  | |- context [(if relative then ?m else ?m') s1] =>
      destruct ((if relative then m else m') s1) as [[ic|e] s2]; [|done]
  end.
  unfold bind at 1.
  destruct (parse_compound_selector parse_rec namespaces s2)
    as [[[result pe]|e] s3] eqn:Hc; [|done].
  apply parse_compound_selector_shape in Hc as [l ->].
  unfold bind at 1, TS.remaining at 1.
  by apply selector_loop_left_deep.
Qed.

Lemma parse_loop_left_deep fuel namespaces forgiving relative tokens :
  Forall (λ selector, left_deep (parsed_tree_of selector) = true)
    (parse_loop parse_rec fuel namespaces forgiving relative tokens).1.
Proof.
  revert tokens. induction fuel as [|fuel IH]; intros tokens;
    cbn [parse_loop]; [by constructor|].
  destruct tokens as [|next tokens]; cbn [TS.next]; [by constructor|].
  destruct (tok_eq next ",").
  - destruct (parse_selector parse_rec namespaces relative tokens)
      as [[selector|e] tokens'] eqn:Hsel.
    + constructor; [by eapply parse_selector_left_deep | apply IH].
    + destruct e; try by constructor.
      destruct (negb forgiving); [by constructor | apply IH].
  - destruct (negb forgiving); [by constructor | apply IH].
Qed.

Lemma parse_body_left_deep input namespaces forgiving relative :
  Forall (λ selector, left_deep (parsed_tree_of selector) = true)
    (parse_body parse_rec input namespaces forgiving relative).1.
Proof.
  unfold parse_body.
  destruct (parse_selector parse_rec namespaces relative input)
    as [[selector|e] tokens'] eqn:Hsel.
  - constructor; [by eapply parse_selector_left_deep|].
    apply parse_loop_left_deep.
  - destruct e; try by constructor. destruct forgiving; by constructor.
Qed.

End LeftDeep.

(** Every selector [parse] yields is one [parse_selector] has returned. *)
Lemma parse_loop_parsed parse_rec fuel namespaces forgiving relative tokens :
  Forall (λ selector, ∃ s s',
            parse_selector parse_rec namespaces relative s
            = (Ok selector, s'))
    (parse_loop parse_rec fuel namespaces forgiving relative tokens).1.
Proof.
  revert tokens. induction fuel as [|fuel IH]; intros tokens;
    cbn [parse_loop]; [by constructor|].
  destruct tokens as [|next tokens]; cbn [TS.next]; [by constructor|].
  destruct (tok_eq next ",").
  - destruct (parse_selector parse_rec namespaces relative tokens)
      as [[selector|e] tokens'] eqn:Hsel.
    + constructor; [by eexists _, _ | apply IH].
    + destruct e; try by constructor.
      destruct (negb forgiving); [by constructor | apply IH].
  - destruct (negb forgiving); [by constructor | apply IH].
Qed.

Lemma parse_parsed input namespaces forgiving relative :
  Forall (λ selector, ∃ s s',
            parse_selector parse namespaces relative s = (Ok selector, s'))
    (parse input namespaces forgiving relative).1.
Proof.
  rewrite parse_unfold. unfold parse_body.
  destruct (parse_selector parse namespaces relative input)
    as [[selector|e] tokens'] eqn:Hsel.
  - constructor; [by eexists _, _ | apply parse_loop_parsed].
  - destruct e; try by constructor. destruct forgiving; by constructor.
Qed.

(** C6. The tree of a selector is built to the left.  Whatever
    [parse_selector] returns is its first compound selector followed by the
    pairs of a combinator and the compound selector parsed after it, in the
    order of the input, each pair added as
    [CombinedSelector (all that came before) combinator compound]: the left
    child holds everything parsed so far and the right child is the compound
    selector parsed last.  Every selector [parse] yields is returned by
    [parse_selector] and holds a left-deep tree.  [a b > c] gives
    [CombinedSelector (CombinedSelector a " " b) ">" c] and [a b ~ c] gives
    [CombinedSelector (CombinedSelector a " " b) "~" c]; the right-nested
    tree of the same selector is not left-deep. *)
Theorem C6_combined_selectors_are_left_deep :
  (∀ namespaces relative s selector s',
     parse_selector parse namespaces relative s = (Ok selector, s') →
     ∃ initial_combinator s0 first pe0 s1 pairs pe,
       selector_prelude relative s = (Ok initial_combinator, s0)
       ∧ parse_compound_selector parse namespaces s0
         = (Ok (CompoundSelector first, pe0), s1)
       ∧ combined_run namespaces pe0 s1 pairs pe s'
       ∧ Forall (λ p, ∃ l, p.2 = CompoundSelector l) pairs
       ∧ selector
         = make_selector relative initial_combinator
             (fold_combined (CompoundSelector first) pairs) pe)
  ∧ (∀ first pairs combinator compound,
       fold_combined first (pairs ++ [(combinator, compound)])
       = CombinedSelector (fold_combined first pairs) combinator compound)
  ∧ (∀ input namespaces forgiving relative,
       Forall (λ selector, ∃ s s',
                 parse_selector parse namespaces relative s
                 = (Ok selector, s'))
         (parse input namespaces forgiving relative).1)
  ∧ (∀ input namespaces forgiving relative,
       Forall (λ selector, left_deep (parsed_tree_of selector) = true)
         (parse input namespaces forgiving relative).1)
  ∧ parse tokens_a_b_c ∅ false false
    = ([Selector
          (CombinedSelector
             (CombinedSelector
                (CompoundSelector [LocalNameSelector "a" "a"]) " "
                (CompoundSelector [LocalNameSelector "b" "b"]))
             ">" (CompoundSelector [LocalNameSelector "c" "c"]))
          None], None)
  ∧ parse tokens_a_b_sibling_c ∅ false false
    = ([Selector
          (CombinedSelector
             (CombinedSelector
                (CompoundSelector [LocalNameSelector "a" "a"]) " "
                (CompoundSelector [LocalNameSelector "b" "b"]))
             "~" (CompoundSelector [LocalNameSelector "c" "c"]))
          None], None)
  ∧ left_deep
      (CombinedSelector (CompoundSelector [LocalNameSelector "a" "a"]) " "
         (CombinedSelector
            (CompoundSelector [LocalNameSelector "b" "b"]) ">"
            (CompoundSelector [LocalNameSelector "c" "c"])))
    = false.
Proof.
  split; [intros; by eapply parse_selector_run|].
  split; [intros; unfold fold_combined; by rewrite fold_left_app|].
  split; [intros; apply parse_parsed|].
  split; [|split; [by vm_compute | split; [by vm_compute | done]]].
  intros input ns forgiving relative. rewrite parse_unfold.
  apply parse_body_left_deep.
Qed.

(** The first part at [a b > c]. *)
Lemma C6_combined_selectors_are_left_deep_witness :
  let a := CompoundSelector [LocalNameSelector "a" "a"] in
  let b := CompoundSelector [LocalNameSelector "b" "b"] in
  let c := CompoundSelector [LocalNameSelector "c" "c"] in
  parse_selector parse ∅ false tokens_a_b_c
  = (Ok (Selector (CombinedSelector (CombinedSelector a " " b) ">" c) None),
     [])
  ∧ ∃ initial_combinator s0 first pe0 s1 pairs pe,
      selector_prelude false tokens_a_b_c = (Ok initial_combinator, s0)
      ∧ parse_compound_selector parse ∅ s0
        = (Ok (CompoundSelector first, pe0), s1)
      ∧ combined_run ∅ pe0 s1 pairs pe []
      ∧ Forall (λ p, ∃ l, p.2 = CompoundSelector l) pairs
      ∧ Selector (CombinedSelector (CombinedSelector a " " b) ">" c) None
        = make_selector false initial_combinator
            (fold_combined (CompoundSelector first) pairs) pe.
Proof.
  intros a b c.
  assert (parse_selector parse ∅ false tokens_a_b_c
          = (Ok (Selector (CombinedSelector (CombinedSelector a " " b) ">" c)
                   None), [])) as Hsel by (by vm_compute).
  split; [exact Hsel|].
  exact (proj1 C6_combined_selectors_are_left_deep ∅ false tokens_a_b_c _ _
           Hsel).
Defined.

(** ** C7: qualified names *)

(** C7. With a mapping that sends the prefix [svg] to a URL, [svg|rect]
    resolves to that URL and the local name [rect]; [|rect] resolves to the
    empty string, "no namespace", and the local name [rect], under every
    mapping; a prefix that the mapping does not hold raises a
    [SelectorError] for an undefined namespace prefix, carrying the prefix
    token, here seen on [foo|rect]. *)
Theorem C7_qualified_name_resolution :
  (∀ (namespaces : namespaces_t) is_attribute prefix lower_prefix url name
     lower_name rest,
     namespaces !! Some prefix = Some url →
     parse_qualified_name namespaces is_attribute
       (TIdent prefix lower_prefix :: lit "|" :: TIdent name lower_name
        :: rest)
     = (Ok (Some (Some url, Some (name, lower_name))), rest))
  ∧ (∀ (namespaces : namespaces_t) is_attribute name lower_name rest,
       parse_qualified_name namespaces is_attribute
         (lit "|" :: TIdent name lower_name :: rest)
       = (Ok (Some (Some "", Some (name, lower_name))), rest))
  ∧ (∀ (namespaces : namespaces_t) is_attribute prefix lower_prefix rest,
       namespaces !! Some prefix = None →
       parse_qualified_name namespaces is_attribute
         (TIdent prefix lower_prefix :: lit "|" :: rest)
       = (Raise (SelectorError (Some (TIdent prefix lower_prefix))
                   (UndefinedNamespacePrefix prefix)), rest))
  ∧ parse_qualified_name svg_namespaces false
      [ident "svg"; lit "|"; ident "rect"]
    = (Ok (Some (Some "http://www.w3.org/2000/svg", Some ("rect", "rect"))),
       [])
  ∧ parse [ident "foo"; lit "|"; ident "rect"] svg_namespaces false false
    = ([], Some (SelectorError (Some (ident "foo"))
                   (UndefinedNamespacePrefix "foo"))).
Proof.
  split; [|split; [|split; [|split; by vm_compute]]].
  - intros ns is_attribute prefix lower_prefix url name lower_name rest H.
    unfold parse_qualified_name, bind, TS.peek, TS.next. simpl.
    by rewrite H.
  - done.
  - intros ns is_attribute prefix lower_prefix rest H.
    unfold parse_qualified_name, bind, TS.peek, TS.next. simpl.
    by rewrite H.
Qed.

Lemma C7_qualified_name_resolution_witness :
  svg_namespaces !! Some "svg" = Some "http://www.w3.org/2000/svg"
  ∧ svg_namespaces !! Some "foo" = None
  ∧ parse_qualified_name svg_namespaces false
      [ident "svg"; lit "|"; ident "rect"]
    = (Ok (Some (Some "http://www.w3.org/2000/svg", Some ("rect", "rect"))),
       [])
  ∧ parse_qualified_name svg_namespaces false
      [ident "foo"; lit "|"; ident "rect"]
    = (Raise (SelectorError (Some (ident "foo"))
                (UndefinedNamespacePrefix "foo")), [ident "rect"]).
Proof.
  assert (svg_namespaces !! Some "svg" = Some "http://www.w3.org/2000/svg")
    as Hsvg by (vm_compute; reflexivity).
  assert (svg_namespaces !! Some "foo" = None) as Hfoo
    by (vm_compute; reflexivity).
  split; [exact Hsvg|]. split; [exact Hfoo|]. split.
  - exact (proj1 C7_qualified_name_resolution svg_namespaces false
             "svg" "svg" _ "rect" "rect" [] Hsvg).
  - exact (proj1 (proj2 (proj2 C7_qualified_name_resolution)) svg_namespaces
             false "foo" "foo" [ident "rect"] Hfoo).
Defined.

(** ** C8: attribute selectors *)



(** ** C9: pseudo-elements inside the logical combinators *)



(** ** C10: a hash token that is not a valid identifier *)


(** * Further properties of the parser *)

(** ** Exceptions [parse] never ends with *)

Lemma clean_ret {A} (a : A) : clean_m (ret a).
Proof. by intros s. Qed.

Lemma clean_raise {A} (e : exn) : not_internal e = true → clean_m (@raise A e).
Proof. by intros He s. Qed.

Lemma clean_lift {A} (r : result A) : clean r → clean_m (lift r).
Proof. by intros Hr s. Qed.

Lemma clean_bind {A B} (m : M A) (k : A → M B) :
  clean_m m → (∀ a, clean_m (k a)) → clean_m (bind m k).
Proof.
  intros Hm Hk s. unfold bind. specialize (Hm s).
  destruct (m s) as [[a|e] s1]; simpl in *; [apply Hk | done].
Qed.

Lemma clean_next : clean_m TS.next.
Proof. by intros [|t s]. Qed.

Lemma clean_peek : clean_m TS.peek.
Proof. by intros s. Qed.

Lemma clean_remaining : clean_m TS.remaining.
Proof. by intros s. Qed.

Lemma clean_skip skip_types : clean_m (TS.skip skip_types).
Proof. intros s. unfold TS.skip. by destruct (TS.skip_from _ _ _). Qed.

Ltac clean_step :=
  match goal with
  | |- clean_m (bind _ _) => apply clean_bind; [| intros ?]
  | |- clean_m (ret _) => apply clean_ret
  | |- clean_m (raise _) => apply clean_raise; reflexivity
  | |- clean_m TS.next => apply clean_next
  | |- clean_m TS.peek => apply clean_peek
  | |- clean_m TS.remaining => apply clean_remaining
  | |- clean_m TS.skip_whitespace => apply clean_skip
  | |- clean_m TS.skip_comment => apply clean_skip
  | |- clean_m TS.skip_whitespace_and_comment => apply clean_skip
  | |- clean_m (match ?x with _ => _ end) => destruct x eqn:?
  end.

Ltac clean_tac := repeat clean_step.

Lemma clean_parse_qualified_name namespaces is_attribute :
  clean_m (parse_qualified_name namespaces is_attribute).
Proof. unfold parse_qualified_name, qualified_name_local. clean_tac. Qed.

(** An attribute name is never a wildcard. *)
Lemma parse_qualified_name_attribute namespaces s namespace local_name s' :
  parse_qualified_name namespaces true s
  = (Ok (Some (namespace, local_name)), s') →
  local_name ≠ None.
Proof.
  unfold parse_qualified_name, qualified_name_local, bind, TS.peek, TS.next,
    ret, raise.
  intros H. destruct s as [|t1 s]; simpl in H; [by simplify_eq|].
  repeat (case_match; simplify_eq/=); try done;
    match goal with
    | Hb : _ && false = true |- _ => by rewrite andb_false_r in Hb
    end.
Qed.

Lemma attribute_parts_shape namespaces s namespace local_name operator value
    s' :
  attribute_parts namespaces s
  = (Ok ((namespace, local_name), operator, value), s') →
  local_name ≠ None
  ∧ ((operator = None ∧ value = None)
     ∨ ∃ o v, operator = Some o ∧ value = Some v ∧ o ∈ attribute_operators).
Proof.
  unfold attribute_parts. unfold bind at 1.
  destruct (TS.skip_whitespace s) as [[ws|e] s1]; [|done].
  unfold bind at 1.
  destruct (parse_qualified_name namespaces true s1) as [[[[n l]|]|e] s2]
    eqn:Hq; [| |done].
  - apply parse_qualified_name_attribute in Hq.
    unfold bind at 1.
    destruct (TS.skip_whitespace s2) as [[ws2|e] s3]; [|done].
    unfold bind at 1, TS.peek at 1.
    destruct (head s3) as [peek|]; [|by intros [= <- <- <- <- <-]; auto].
    destruct (tok_in peek attribute_operators) eqn:Hin; [|done].
    assert (literal_value peek ∈ attribute_operators) as Hop.
    { destruct peek as [| | |v| | | | |]; try discriminate Hin.
      unfold tok_in, attribute_operators in Hin. simpl in Hin.
      rewrite !orb_false_r in Hin. simpl. unfold attribute_operators.
      repeat (apply orb_prop in Hin as [Hin|Hin];
        [apply String.eqb_eq in Hin as ->; set_solver|]).
      apply String.eqb_eq in Hin as ->. set_solver. }
    unfold bind, TS.next, TS.skip_whitespace, TS.skip, ret, raise.
    destruct s3 as [|t3 s3]; [done|].
    destruct (TS.skip_from ["whitespace"] false s3) as [f4 [|t4 s4]]; [done|].
    destruct t4; try done; intros [= <- <- <- <- <-];
      (split; [done|]; right; eauto).
  - unfold bind, TS.next, raise. by destruct s2.
Qed.

Lemma clean_parse_attribute_selector namespaces :
  clean_m (parse_attribute_selector namespaces).
Proof.
  intros s. unfold parse_attribute_selector. unfold bind at 1.
  pose proof (attribute_parts_shape namespaces s) as Hshape.
  assert (clean_m (attribute_parts namespaces)) as Hclean.
  { unfold attribute_parts. clean_tac; apply clean_parse_qualified_name. }
  specialize (Hclean s).
  destruct (attribute_parts namespaces s) as [[[[[n l] op] v]|e] s1];
    simpl in *; [|done].
  destruct (Hshape n l op v s1 eq_refl) as [Hl _].
  destruct l as [[name lname]|]; [|done]. unfold make_attribute.
  match goal with
  | |- clean (?m s1).1 =>
      assert (clean_m m) as Hm by clean_tac; apply Hm
  end.
Qed.

Lemma logical_settings_known name :
  str_in name ["is"; "where"; "not"; "has"] = true →
  (logical_settings name).2 ≠ None.
Proof.
  unfold str_in, logical_settings. simpl.
  by repeat (destruct (String.eqb name _)).
Qed.

Section Clean.

Variable parse_rec : parse_fn.
Hypothesis parse_rec_clean :
  ∀ arguments namespaces forgiving relative,
    clean_gen (parse_rec arguments namespaces forgiving relative).

Lemma clean_parse_logical_combination tok namespaces name :
  str_in name ["is"; "where"; "not"; "has"] = true →
  clean (parse_logical_combination parse_rec tok namespaces name).
Proof.
  intros Hname. apply logical_settings_known in Hname.
  unfold parse_logical_combination.
  destruct (logical_settings name) as [[forgiving relative] selector_class].
  pose proof (parse_rec_clean (arguments_of tok) namespaces forgiving relative)
    as Hrec. unfold clean_gen in Hrec.
  destruct (parse_rec _ _ _ _) as [ys [e|]]; simpl in *; [done|].
  by destruct selector_class.
Qed.

Lemma clean_parse_simple_selector namespaces :
  clean_m (parse_simple_selector parse_rec namespaces).
Proof.
  unfold parse_simple_selector. clean_tac;
    apply clean_lift;
    first [apply clean_parse_attribute_selector
          | by apply clean_parse_logical_combination].
Qed.

Lemma clean_simple_selector_loop fuel namespaces simple_selectors :
  clean_m (simple_selector_loop parse_rec fuel namespaces simple_selectors).
Proof.
  revert simple_selectors.
  induction fuel as [|fuel IH]; intros acc; cbn [simple_selector_loop];
    clean_tac; auto using clean_parse_simple_selector.
Qed.

Lemma clean_parse_compound_selector namespaces :
  clean_m (parse_compound_selector parse_rec namespaces).
Proof.
  unfold parse_compound_selector, parse_type_selector. clean_tac;
    auto using clean_parse_qualified_name, clean_simple_selector_loop.
Qed.

Lemma clean_comment_loop fuel has_whitespace :
  clean_m (comment_loop fuel has_whitespace).
Proof.
  revert has_whitespace.
  induction fuel as [|fuel IH]; intros hw; cbn [comment_loop]; clean_tac;
    auto.
Qed.

Lemma clean_selector_loop fuel namespaces relative initial_combinator result
    pseudo_element :
  clean_m (selector_loop parse_rec fuel namespaces relative
             initial_combinator result pseudo_element).
Proof.
  revert result pseudo_element.
  induction fuel as [|fuel IH]; intros result pe; cbn [selector_loop];
    clean_tac;
    auto using clean_comment_loop, clean_parse_compound_selector.
Qed.

Lemma clean_parse_selector namespaces relative :
  clean_m (parse_selector parse_rec namespaces relative).
Proof.
  unfold parse_selector. clean_tac;
    auto using clean_selector_loop, clean_parse_compound_selector.
Qed.

Lemma clean_parse_loop fuel namespaces forgiving relative tokens :
  clean_gen (parse_loop parse_rec fuel namespaces forgiving relative tokens).
Proof.
  revert tokens. induction fuel as [|fuel IH]; intros tokens;
    cbn [parse_loop]; [done|].
  destruct tokens as [|next tokens]; cbn [TS.next]; [done|].
  pose proof (clean_parse_selector namespaces relative tokens) as Hsel.
  destruct (parse_selector parse_rec namespaces relative tokens)
    as [[selector|e] tokens']; simpl in Hsel.
  - destruct (tok_eq next ","); [apply IH|].
    destruct (negb forgiving); [done | apply IH].
  - destruct (tok_eq next ",").
    + destruct e; try done. destruct (negb forgiving); [done | apply IH].
    + destruct (negb forgiving); [done | apply IH].
Qed.

Lemma clean_parse_body input namespaces forgiving relative :
  clean_gen (parse_body parse_rec input namespaces forgiving relative).
Proof.
  unfold parse_body.
  pose proof (clean_parse_selector namespaces relative input) as Hsel.
  destruct (parse_selector parse_rec namespaces relative input)
    as [[selector|e] tokens']; simpl in Hsel.
  - apply clean_parse_loop.
  - destruct e; try done. by destruct forgiving.
Qed.

(** In forgiving mode the loop swallows every [SelectorError]. *)
Lemma parse_loop_forgiving_no_selector_error fuel namespaces relative tokens
    tok msg :
  (parse_loop parse_rec fuel namespaces true relative tokens).2
  ≠ Some (SelectorError tok msg).
Proof.
  revert tokens. induction fuel as [|fuel IH]; intros tokens;
    cbn [parse_loop]; [done|].
  destruct tokens as [|next tokens]; cbn [TS.next]; [done|].
  destruct (parse_selector parse_rec namespaces relative tokens)
    as [[selector|e] tokens'].
  - destruct (tok_eq next ","); apply IH.
  - destruct (tok_eq next ","); [|apply IH].
    destruct e; try done. apply IH.
Qed.

Lemma parse_body_forgiving_no_selector_error input namespaces relative
    tok msg :
  (parse_body parse_rec input namespaces true relative).2
  ≠ Some (SelectorError tok msg).
Proof.
  unfold parse_body.
  destruct (parse_selector parse_rec namespaces relative input)
    as [[selector|e] tokens'].
  - apply parse_loop_forgiving_no_selector_error.
  - by destruct e.
Qed.

End Clean.

Lemma clean_parse_at d input namespaces forgiving relative :
  clean_gen (parse_at d input namespaces forgiving relative).
Proof.
  revert input namespaces forgiving relative.
  induction d as [|d IH]; intros input ns f r; simpl;
    apply clean_parse_body; [done | apply IH].
Qed.

Lemma clean_parse input namespaces forgiving relative :
  clean_gen (parse input namespaces forgiving relative).
Proof. apply clean_parse_at. Qed.

(** No run of [parse] ends with the [TypeError] of unpacking a wildcard
    attribute name or with the [UnboundLocalError] of an unknown function
    name: the code that would raise them is never reached. *)
Theorem parse_never_raises_type_error_or_unbound_local_error
    input namespaces forgiving relative :
  (parse input namespaces forgiving relative).2 ≠ Some TypeError
  ∧ (parse input namespaces forgiving relative).2 ≠ Some UnboundLocalError.
Proof.
  pose proof (clean_parse input namespaces forgiving relative) as Hclean.
  unfold clean_gen in Hclean.
  destruct (parse input namespaces forgiving relative) as [ys [e|]];
    [|by split].
  simpl in *. split; intros [= ->]; discriminate Hclean.
Qed.

(** No run of a forgiving [parse] ends with a [SelectorError], whatever
    token and message it would carry. *)
Theorem parse_forgiving_never_raises_selector_error
    input namespaces relative tok msg :
  (parse input namespaces true relative).2 ≠ Some (SelectorError tok msg).
Proof.
  pose proof (parse_body_forgiving_no_selector_error parse input namespaces
                relative tok msg) as Hsel.
  by rewrite <- parse_unfold in Hsel.
Qed.

(** ** A qualified name cut short after [|] *)



(** ** Whitespace and comments around a selector list *)

Lemma skip_from_blanks found found' ws s :
  Forall (λ t, is_blank t = true) ws →
  (TS.skip_from ["comment"; "whitespace"] found (ws ++ s)).2
  = (TS.skip_from ["comment"; "whitespace"] found' s).2.
Proof.
  intros Hws. revert found.
  induction Hws as [|t ws Ht _ IH]; intros found.
  - apply skip_from_stream_found.
  - rewrite <- app_comm_cons. cbn [TS.skip_from].
    unfold is_blank in Ht. rewrite Ht. cbn [negb]. apply IH.
Qed.

Lemma bind_skip_ignored {B} skip_types (k : M B) s1 s2 :
  (TS.skip_from skip_types false s1).2 = (TS.skip_from skip_types false s2).2 →
  bind (TS.skip skip_types) (λ _, k) s1 = bind (TS.skip skip_types) (λ _, k) s2.
Proof.
  unfold bind, TS.skip. intros Heq.
  destruct (TS.skip_from skip_types false s1) as [f1 r1].
  destruct (TS.skip_from skip_types false s2) as [f2 r2].
  simpl in Heq. by subst r2.
Qed.

Lemma parse_selector_blanks parse_rec namespaces relative ws s :
  Forall (λ t, is_blank t = true) ws →
  parse_selector parse_rec namespaces relative (ws ++ s)
  = parse_selector parse_rec namespaces relative s.
Proof.
  intros Hws. unfold parse_selector, TS.skip_whitespace_and_comment.
  apply bind_skip_ignored. by apply skip_from_blanks.
Qed.

(** Whitespace and comments in front of a selector list change nothing:
    the same selectors are yielded and the generator ends the same way. *)
Theorem parse_ignores_leading_blanks ws input namespaces forgiving relative :
  Forall (λ t, is_blank t = true) ws →
  parse (ws ++ input) namespaces forgiving relative
  = parse input namespaces forgiving relative.
Proof.
  intros Hws. rewrite !parse_unfold. unfold parse_body.
  by rewrite parse_selector_blanks.
Qed.

Lemma parse_ignores_leading_blanks_witness :
  Forall (λ t, is_blank t = true) [TWhitespace; TComment]
  ∧ parse ([TWhitespace; TComment] ++ tokens_a_b_c) ∅ false false
    = parse tokens_a_b_c ∅ false false.
Proof.
  assert (Forall (λ t, is_blank t = true) [TWhitespace; TComment]) as Hws
    by (repeat constructor).
  split; [exact Hws|].
  exact (parse_ignores_leading_blanks [TWhitespace; TComment] tokens_a_b_c ∅
           false false Hws).
Defined.

(** An input made of whitespace and comments only, the empty input
    included, holds no selector: the strict parse raises "expected a
    compound selector, got EOF" with no token, the forgiving parse yields
    nothing. *)
Theorem parse_blank_input ws namespaces relative :
  Forall (λ t, is_blank t = true) ws →
  parse ws namespaces false relative
  = ([], Some (SelectorError None (ExpectedCompoundSelector "EOF")))
  ∧ parse ws namespaces true relative = ([], None).
Proof.
  intros Hws. rewrite !parse_unfold. unfold parse_body.
  rewrite <- (app_nil_r ws), parse_selector_blanks by done.
  by destruct relative.
Qed.

Lemma parse_blank_input_witness :
  Forall (λ t, is_blank t = true) [TComment; TWhitespace]
  ∧ parse [TComment; TWhitespace] ∅ false false
    = ([], Some (SelectorError None (ExpectedCompoundSelector "EOF")))
  ∧ parse [TComment; TWhitespace] ∅ true false = ([], None).
Proof.
  assert (Forall (λ t, is_blank t = true) [TComment; TWhitespace]) as Hws
    by (repeat constructor).
  split; [exact Hws|].
  exact (parse_blank_input [TComment; TWhitespace] ∅ false Hws).
Defined.

(** ** [TokenStream.skip] *)

Lemma skip_from_spec skip_types found s :
  ∃ skipped,
    s = skipped ++ (TS.skip_from skip_types found s).2
    ∧ Forall (λ t, str_in (type t) skip_types = true) skipped
    ∧ starts_with skip_types (TS.skip_from skip_types found s).2 = false
    ∧ (TS.skip_from skip_types found s).1
      = found || negb (bool_decide (skipped = [])).
Proof.
  revert found. induction s as [|t s IH]; intros found.
  - exists []. simpl. by rewrite orb_false_r.
  - simpl. destruct (str_in (type t) skip_types) eqn:Ht; simpl.
    + destruct (IH true) as (skipped & Heq & Hall & Hstop & Hfound).
      exists (t :: skipped). split; [by rewrite <- app_comm_cons, <- Heq|].
      split; [by constructor|]. split; [done|].
      rewrite Hfound. simpl. by rewrite orb_true_r.
    + exists []. simpl. rewrite Ht. by rewrite orb_false_r.
Qed.

(** [skip] consumes the longest run of tokens whose type is among
    [skip_types], stops in front of the first token of another type (or at
    the end), never fails, and returns whether it consumed anything. *)
Theorem skip_consumes_the_longest_run skip_types s :
  ∃ skipped rest,
    TS.skip skip_types s = (Ok (negb (bool_decide (skipped = []))), rest)
    ∧ s = skipped ++ rest
    ∧ Forall (λ t, str_in (type t) skip_types = true) skipped
    ∧ starts_with skip_types rest = false.
Proof.
  destruct (skip_from_spec skip_types false s)
    as (skipped & Heq & Hall & Hstop & Hfound).
  exists skipped, (TS.skip_from skip_types false s).2. unfold TS.skip.
  destruct (TS.skip_from skip_types false s) as [found rest]. simpl in *.
  by subst found.
Qed.

(** ** The [TokenStream] object *)

(** On the Python object, with its buffer of peeked tokens: [peek] does not
    consume, [next] after [peek] returns the peeked token and leaves what
    [next] alone would leave, a second [peek] returns the same token, and
    the buffer never holds more than one token. *)
Theorem token_stream_peek_then_next o :
  TokenStreamObject.wf o →
  let o1 := (TokenStreamObject.peek o).2 in
  TokenStreamObject.denote o1 = TokenStreamObject.denote o
  ∧ (TokenStreamObject.peek o).1 = head (TokenStreamObject.denote o)
  ∧ (TokenStreamObject.peek o1).1 = (TokenStreamObject.peek o).1
  ∧ (TokenStreamObject.next o1).1 = (TokenStreamObject.peek o).1
  ∧ (TokenStreamObject.next o).1 = (TokenStreamObject.peek o).1
  ∧ TokenStreamObject.denote (TokenStreamObject.next o1).2
    = tail (TokenStreamObject.denote o)
  ∧ TokenStreamObject.denote (TokenStreamObject.next o).2
    = tail (TokenStreamObject.denote o)
  ∧ length (TokenStreamObject.peeked o1) ≤ 1
  ∧ TokenStreamObject.wf o1
  ∧ TokenStreamObject.wf (TokenStreamObject.next o).2.
Proof.
  destruct o as [toks pk].
  unfold TokenStreamObject.wf, TokenStreamObject.peek, TokenStreamObject.next,
    TokenStreamObject.iter_next, TokenStreamObject.denote. simpl.
  intros [->|[[x ->]|[-> ->]]]; simpl.
  - destruct toks as [|y rest]; simpl;
      repeat split; try done; try lia; eauto.
  - repeat split; try done; try lia; eauto.
  - repeat split; try done; try lia; eauto.
Qed.

Lemma token_stream_peek_then_next_witness :
  let o := TokenStreamObject.init tokens_a_b in
  TokenStreamObject.wf o
  ∧ (TokenStreamObject.next (TokenStreamObject.peek o).2).1
    = (TokenStreamObject.peek o).1.
Proof.
  intros o.
  assert (TokenStreamObject.wf o) as Hwf by (left; reflexivity).
  split; [exact Hwf|].
  exact (proj1 (proj2 (proj2 (proj2 (token_stream_peek_then_next o Hwf))))).
Defined.

(** ** Specificity of compound selectors and of lists of alternatives *)

Lemma specificity_compound simple_selectors :
  specificity (CompoundSelector simple_selectors)
  = sum_columns (map specificity simple_selectors).
Proof. by destruct simple_selectors. Qed.

Lemma list_sum_app (l1 l2 : list nat) :
  list_sum (l1 ++ l2) = list_sum l1 + list_sum l2.
Proof. induction l1 as [|x l1 IH]; simpl; [done|]. rewrite IH. lia. Qed.

Lemma list_sum_permutation (l1 l2 : list nat) :
  l1 ≡ₚ l2 → list_sum l1 = list_sum l2.
Proof. induction 1; simpl; lia. Qed.

(** The specificity of a compound selector is the component-wise sum of the
    specificities of its members: it is additive over concatenation, a
    single member keeps its own specificity, and the empty compound (the
    bare universal selector) has [(0, 0, 0)]. *)
Theorem compound_specificity_is_additive :
  (∀ l1 l2,
     specificity (CompoundSelector (l1 ++ l2))
     = triple_add (specificity (CompoundSelector l1))
         (specificity (CompoundSelector l2)))
  ∧ (∀ simple_selector,
       specificity (CompoundSelector [simple_selector])
       = specificity simple_selector)
  ∧ specificity (CompoundSelector []) = (0, 0, 0).
Proof.
  split; [|split; [|done]].
  - intros l1 l2. rewrite !specificity_compound.
    unfold sum_columns, triple_add. cbn [fst snd].
    by rewrite !List.map_app, !list_sum_app.
  - intros x. simpl. unfold sum_columns. simpl.
    destruct (specificity x) as [[a b] c]. simpl. f_equal; [f_equal|]; lia.
Qed.

Lemma lex_le_antisym x y : lex_le x y → lex_le y x → x = y.
Proof.
  destruct x as [[a1 b1] c1], y as [[a2 b2] c2]. unfold lex_le, lex_lt. simpl.
  intros [?|?] [?|?]; simplify_eq; auto; lia.
Qed.

Lemma is_lex_max_unique m1 m2 specs1 specs2 :
  specs1 ≡ₚ specs2 → is_lex_max m1 specs1 → is_lex_max m2 specs2 → m1 = m2.
Proof.
  intros Hperm [Hin1 Hall1] [Hin2 Hall2].
  rewrite Forall_forall in Hall1, Hall2.
  apply lex_le_antisym.
  - apply Hall2. by rewrite <- Hperm.
  - apply Hall1. by rewrite Hperm.
Qed.

Lemma max_or_zero_permutation specs1 specs2 :
  specs1 ≡ₚ specs2 → max_or_zero specs1 = max_or_zero specs2.
Proof.
  intros Hperm.
  destruct specs1 as [|x1 l1], specs2 as [|x2 l2]; [done| | |].
  - by apply Permutation_nil_cons in Hperm.
  - symmetry in Hperm. by apply Permutation_nil_cons in Hperm.
  - eapply is_lex_max_unique; [done | apply py_max_is_lex_max..].
Qed.

(** The order of the members does not matter: reordering the alternatives
    of [:not()], [:has()] or [:is()], or the members of a compound selector,
    leaves the specificity unchanged. *)
Theorem specificity_ignores_order l1 l2 :
  l1 ≡ₚ l2 →
  specificity (NegationSelector l1) = specificity (NegationSelector l2)
  ∧ specificity (RelationalSelector l1) = specificity (RelationalSelector l2)
  ∧ specificity (MatchesAnySelector l1) = specificity (MatchesAnySelector l2)
  ∧ specificity (CompoundSelector l1) = specificity (CompoundSelector l2).
Proof.
  intros Hperm.
  assert (map specificity l1 ≡ₚ map specificity l2) as Hmap
    by (by apply Permutation_map).
  repeat split; try (simpl; by apply max_or_zero_permutation).
  rewrite !specificity_compound. unfold sum_columns.
  f_equal; [f_equal|]; apply list_sum_permutation;
    by apply Permutation_map.
Qed.

Lemma specificity_ignores_order_witness :
  [class_a; id_b] ≡ₚ [id_b; class_a]
  ∧ specificity (MatchesAnySelector [class_a; id_b])
    = specificity (MatchesAnySelector [id_b; class_a]).
Proof.
  assert ([class_a; id_b] ≡ₚ [id_b; class_a]) as Hperm by apply perm_swap.
  split; [exact Hperm|].
  exact (proj1 (proj2 (proj2 (specificity_ignores_order _ _ Hperm)))).
Defined.

(** ** Type selectors *)

(** A type selector holds at most a local name and a namespace, and its
    specificity looks at the local name alone: [(0, 0, 1)] with one,
    [(0, 0, 0)] for a wildcard, whatever the namespace. *)
Theorem type_selector_specificity namespaces s simple_selectors s' :
  parse_type_selector namespaces s = (Ok (Some simple_selectors), s') →
  ∃ namespace local_name,
    parse_qualified_name namespaces false (TS.skip_whitespace s).2
    = (Ok (Some (namespace, local_name)), s')
    ∧ simple_selectors
      = match local_name with
        | Some (value, lower_value) => [LocalNameSelector value lower_value]
        | None => []
        end
        ++ match namespace with
           | Some url => [NamespaceSelector url]
           | None => []
           end
    ∧ specificity (CompoundSelector simple_selectors)
      = (0, 0, match local_name with Some _ => 1 | None => 0 end).
Proof.
  unfold parse_type_selector. unfold bind at 1.
  destruct (TS.skip_whitespace s) as [[ws|e] s1]; [|done]. simpl.
  unfold bind.
  destruct (parse_qualified_name namespaces false s1)
    as [[[[n [[v lv]|]]|]|e] s2]; try done;
    intros [= <- <-]; exists n; eexists; (split; [done|]);
    by destruct n.
Qed.

Lemma type_selector_specificity_witness :
  parse_type_selector svg_namespaces [ident "svg"; lit "|"; ident "rect"]
  = (Ok (Some [LocalNameSelector "rect" "rect";
               NamespaceSelector "http://www.w3.org/2000/svg"]), [])
  ∧ ∃ namespace local_name,
      parse_qualified_name svg_namespaces false
        (TS.skip_whitespace [ident "svg"; lit "|"; ident "rect"]).2
      = (Ok (Some (namespace, local_name)), [])
      ∧ [LocalNameSelector "rect" "rect";
         NamespaceSelector "http://www.w3.org/2000/svg"]
        = match local_name with
          | Some (value, lower_value) => [LocalNameSelector value lower_value]
          | None => []
          end
          ++ match namespace with
             | Some url => [NamespaceSelector url]
             | None => []
             end
      ∧ specificity
          (CompoundSelector
             [LocalNameSelector "rect" "rect";
              NamespaceSelector "http://www.w3.org/2000/svg"])
        = (0, 0, match local_name with Some _ => 1 | None => 0 end).
Proof.
  assert (parse_type_selector svg_namespaces
            [ident "svg"; lit "|"; ident "rect"]
          = (Ok (Some [LocalNameSelector "rect" "rect";
                       NamespaceSelector "http://www.w3.org/2000/svg"]), []))
    as H by (vm_compute; reflexivity).
  split; [exact H|].
  exact (type_selector_specificity svg_namespaces _ _ _ H).
Defined.

(** ** Attribute selectors *)

(** What [parse_attribute_selector] returns is an [AttributeSelector] with a
    name, never a wildcard, and either no operator and no value or one of
    the six operators together with a value. *)
Theorem attribute_selector_shape namespaces content n s :
  parse_attribute_selector namespaces content = (Ok n, s) →
  attribute_shape n.
Proof.
  unfold parse_attribute_selector. unfold bind at 1.
  pose proof (attribute_parts_shape namespaces content) as Hshape.
  destruct (attribute_parts namespaces content) as [[[[[ns l] op] v]|e] s1];
    [|done].
  destruct (Hshape ns l op v s1 eq_refl) as [Hl Hop].
  unfold bind at 1. destruct (TS.skip_whitespace s1) as [[ws|e] s2]; [|done].
  unfold bind, TS.next. destruct s2 as [|t s2]; [|done].
  unfold make_attribute. destruct l as [[name lname]|]; [|done].
  intros [= <- <-]. simpl.
  by destruct Hop as [[-> ->]|(o & val & -> & -> & Hin)].
Qed.

Lemma attribute_selector_shape_witness :
  parse_attribute_selector ∅ [ident "attr"; lit "^="; TString "v"]
  = (Ok (AttributeSelector (Some "") "attr" "attr" (Some "^=") (Some "v")),
     [])
  ∧ attribute_shape
      (AttributeSelector (Some "") "attr" "attr" (Some "^=") (Some "v")).
Proof.
  assert (parse_attribute_selector ∅ [ident "attr"; lit "^="; TString "v"]
          = (Ok (AttributeSelector (Some "") "attr" "attr" (Some "^=")
                   (Some "v")), [])) as H by (vm_compute; reflexivity).
  split; [exact H|].
  exact (attribute_selector_shape ∅ _ _ _ H).
Defined.

(** ** A selector is never parsed from nothing *)

Lemma selector_loop_suffix parse_rec fuel namespaces relative
    initial_combinator result pseudo_element s r s' :
  selector_loop parse_rec fuel namespaces relative initial_combinator result
    pseudo_element s = (r, s') →
  s' `suffix_of` s.
Proof. apply mono_result, mono_selector_loop. Qed.

(** A compound selector, and so a selector, is never empty: when
    [parse_compound_selector] or [parse_selector] succeeds it has consumed
    at least one token. *)
Theorem successful_parse_consumes_a_token parse_rec namespaces :
  (∀ s r s',
     parse_compound_selector parse_rec namespaces s = (Ok r, s') →
     length s' < length s)
  ∧ (∀ relative s selector s',
       parse_selector parse_rec namespaces relative s = (Ok selector, s') →
       length s' < length s).
Proof.
  split; [intros s r s'; apply parse_compound_selector_progress|].
  intros relative s selector s'. unfold parse_selector. unfold bind at 1.
  pose proof (tame_skip ["comment"; "whitespace"] s) as [Hs1 _].
  change (TS.skip ["comment"; "whitespace"])
    with TS.skip_whitespace_and_comment in Hs1.
  destruct (TS.skip_whitespace_and_comment s) as [[ws|e] s1]; [|done].
  simpl in Hs1. apply suffix_length in Hs1.
  unfold bind at 1.
  match goal with
  | |- context [(if relative then ?m else ?m') s1] =>
      assert (stream_mono (if relative then m else m')) as Hmono
        by (destruct relative; mono_tac);
      specialize (Hmono s1);
      destruct ((if relative then m else m') s1) as [[ic|e] s2]; [|done]
  end.
  simpl in Hmono. apply suffix_length in Hmono.
  unfold bind at 1.
  destruct (parse_compound_selector parse_rec namespaces s2)
    as [[[result pe]|e] s3] eqn:Hc; [|done].
  apply parse_compound_selector_progress in Hc.
  unfold bind at 1, TS.remaining at 1. intros Hloop.
  apply selector_loop_suffix, suffix_length in Hloop. lia.
Qed.

Lemma successful_parse_consumes_a_token_witness :
  parse_selector parse ∅ false tokens_a_b_c
  = (Ok (Selector
           (CombinedSelector
              (CombinedSelector
                 (CompoundSelector [LocalNameSelector "a" "a"]) " "
                 (CompoundSelector [LocalNameSelector "b" "b"]))
              ">" (CompoundSelector [LocalNameSelector "c" "c"]))
           None), [])
  ∧ length ([] : TokenStream) < length tokens_a_b_c.
Proof.
  assert (parse_selector parse ∅ false tokens_a_b_c
          = (Ok (Selector
                   (CombinedSelector
                      (CombinedSelector
                         (CompoundSelector [LocalNameSelector "a" "a"]) " "
                         (CompoundSelector [LocalNameSelector "b" "b"]))
                      ">" (CompoundSelector [LocalNameSelector "c" "c"]))
                   None), [])) as H by (vm_compute; reflexivity).
  split; [exact H|].
  exact (proj2 (successful_parse_consumes_a_token parse ∅) false _ _ _ H).
Defined.

(** ** The default namespace *)

(** The default namespace, the entry of the mapping under [None], is
    attached to element names and never to attribute names: the selector
    [name] gets a [NamespaceSelector] exactly when the mapping has a
    default, while [[name]] always gets the empty namespace. *)
Theorem default_namespace_is_for_elements_only
    (namespaces : namespaces_t) value lower_value forgiving :
  parse [TIdent value lower_value] namespaces forgiving false
  = ([Selector
        (CompoundSelector
           (LocalNameSelector value lower_value
            :: match namespaces !! (None : option string) with
               | Some url => [NamespaceSelector url]
               | None => []
               end)) None], None)
  ∧ parse [TBlock [TIdent value lower_value]] namespaces forgiving false
    = ([Selector
          (CompoundSelector
             [AttributeSelector (Some "") value lower_value None None])
          None], None).
Proof.
  rewrite !parse_unfold. unfold parse_body. split.
  - unfold parse_selector, parse_compound_selector, parse_type_selector,
      parse_qualified_name, bind, TS.peek, TS.next, TS.remaining, ret. simpl.
    by destruct (namespaces !! None).
  - done.
Qed.

(** ** Pseudo-elements *)

Lemma legacy_names_are_supported name :
  str_in name ["before"; "after"; "first-line"; "first-letter"] = true →
  str_in name SUPPORTED_PSEUDO_ELEMENTS = true.
Proof.
  unfold str_in. simpl. rewrite !orb_false_r.
  intros H.
  repeat (apply orb_prop in H as [H|H];
    [apply String.eqb_eq in H as ->; reflexivity|]).
  apply String.eqb_eq in H as ->. reflexivity.
Qed.

(** In front of an element name [parse_selector] has nothing to skip and
    no leading combinator to read. *)
Lemma parse_selector_at_ident parse_rec namespaces relative element
    lower_element s :
  parse_selector parse_rec namespaces relative
    (TIdent element lower_element :: s)
  = bind (parse_compound_selector parse_rec namespaces)
      (λ r, let '(result, pseudo_element) := r in
            bind TS.remaining (λ s0,
              selector_loop parse_rec (S (length s0)) namespaces relative
                " " result pseudo_element))
      (TIdent element lower_element :: s).
Proof.
  unfold parse_selector. unfold bind at 1.
  change (TS.skip_whitespace_and_comment (TIdent element lower_element :: s))
    with (@Ok bool false, TIdent element lower_element :: s).
  cbv beta iota. unfold bind at 1.
  destruct relative.
  - change ((_ <- TS.peek ;; _) (TIdent element lower_element :: s))
      with (Ok " "%string, TIdent element lower_element :: s).
    reflexivity.
  - reflexivity.
Qed.

(** The single-colon spelling of [before], [after], [first-line] and
    [first-letter] is read as the double-colon one: after an element name,
    [:name] and [::name] give the same selector and leave the same stream,
    and on its own each gives the pseudo-element [name]. *)
Theorem legacy_pseudo_element_spelling parse_rec namespaces relative
    element lower_element value name rest :
  str_in name ["before"; "after"; "first-line"; "first-letter"] = true →
  parse_simple_selector parse_rec namespaces
    (lit ":" :: TIdent value name :: rest)
  = (Ok (None, Some name), rest)
  ∧ parse_simple_selector parse_rec namespaces
      (lit ":" :: lit ":" :: TIdent value name :: rest)
    = (Ok (None, Some name), rest)
  ∧ parse_selector parse_rec namespaces relative
      (TIdent element lower_element :: lit ":" :: TIdent value name :: rest)
    = parse_selector parse_rec namespaces relative
        (TIdent element lower_element :: lit ":" :: lit ":"
         :: TIdent value name :: rest).
Proof.
  intros Hname.
  pose proof (legacy_names_are_supported name Hname) as Hsup.
  assert (parse_simple_selector parse_rec namespaces
            (lit ":" :: TIdent value name :: rest)
          = (Ok (None, Some name), rest)) as H1.
  { unfold parse_simple_selector, bind, TS.peek, TS.next, ret.
    cbn [head tok_eq lit String.eqb Ascii.eqb Bool.eqb otok_eq].
    by rewrite Hname. }
  assert (parse_simple_selector parse_rec namespaces
            (lit ":" :: lit ":" :: TIdent value name :: rest)
          = (Ok (None, Some name), rest)) as H2.
  { unfold parse_simple_selector, bind, TS.peek, TS.next, ret.
    cbn [head tok_eq lit String.eqb Ascii.eqb Bool.eqb otok_eq].
    by rewrite Hsup. }
  split; [done|]. split; [done|].
  assert (∀ s,
    parse_simple_selector parse_rec namespaces s
    = (Ok (None, Some name), rest) →
    head s = Some (lit ":") →
    parse_compound_selector parse_rec namespaces
      (TIdent element lower_element :: s)
    = (Ok (CompoundSelector
             (LocalNameSelector element lower_element
              :: match namespaces !! (None : option string) with
                 | Some url => [NamespaceSelector url]
                 | None => []
                 end), Some name), rest)) as Hcomp.
  { intros s Hs Hhead. destruct s as [|t s]; [done|].
    simpl in Hhead. injection Hhead as ->.
    unfold parse_compound_selector, parse_type_selector. unfold bind at 1.
    unfold bind at 1.
    change (TS.skip_whitespace (TIdent element lower_element :: lit ":" :: s))
      with (@Ok bool false, TIdent element lower_element :: lit ":" :: s).
    cbv beta iota. unfold bind at 1.
    change (parse_qualified_name namespaces false
              (TIdent element lower_element :: lit ":" :: s))
      with (@Ok (option qname)
              (Some (namespaces !! (None : option string),
                     Some (element, lower_element))), lit ":" :: s).
    cbv beta iota. unfold ret at 1.
    unfold bind at 1, TS.remaining at 1. cbv beta iota.
    unfold bind at 1. cbn [simple_selector_loop]. unfold bind at 1.
    rewrite Hs. cbv beta iota. unfold ret at 1. cbv beta iota.
    by destruct (namespaces !! None). }
  rewrite !parse_selector_at_ident.
  assert (∀ s,
    parse_simple_selector parse_rec namespaces s
    = (Ok (None, Some name), rest) →
    head s = Some (lit ":") →
    bind (parse_compound_selector parse_rec namespaces)
      (λ r, let '(result, pseudo_element) := r in
            bind TS.remaining (λ s0,
              selector_loop parse_rec (S (length s0)) namespaces relative
                " " result pseudo_element))
      (TIdent element lower_element :: s)
    = (Ok (if relative
           then RelativeSelector " "
                  (Selector
                     (CompoundSelector
                        (LocalNameSelector element lower_element
                         :: match namespaces !! (None : option string) with
                            | Some url => [NamespaceSelector url]
                            | None => []
                            end)) (Some name))
           else Selector
                  (CompoundSelector
                     (LocalNameSelector element lower_element
                      :: match namespaces !! (None : option string) with
                         | Some url => [NamespaceSelector url]
                         | None => []
                         end)) (Some name)),
       (TS.skip_whitespace_and_comment rest).2)) as Hsel.
  { intros s Hs Hhead. unfold bind at 1. rewrite (Hcomp s Hs Hhead).
    unfold bind at 1, TS.remaining at 1.
    apply selector_loop_pseudo_element. }
  by rewrite !Hsel.
Qed.

Lemma legacy_pseudo_element_spelling_witness :
  str_in "after" ["before"; "after"; "first-line"; "first-letter"] = true
  ∧ parse_selector parse ∅ false [ident "p"; lit ":"; ident "after"]
    = parse_selector parse ∅ false
        [ident "p"; lit ":"; lit ":"; ident "after"].
Proof.
  split; [reflexivity|].
  exact (proj2 (proj2 (legacy_pseudo_element_spelling parse ∅ false
           "p" "p" "after" "after" [] eq_refl))).
Defined.

(** ** What every yielded selector looks like *)

Lemma combinator_token_value peek :
  tok_in peek [">"; "+"; "~"] = true → literal_value peek ∈ combinators.
Proof.
  destruct peek as [| | |v| | | | |]; try discriminate.
  unfold tok_in, combinators. simpl. rewrite !orb_false_r. intros H.
  repeat (apply orb_prop in H as [H|H];
    [apply String.eqb_eq in H as ->; set_solver|]).
  apply String.eqb_eq in H as ->. set_solver.
Qed.

Section Yielded.

Variable parse_rec : parse_fn.

Lemma parse_simple_selector_supported namespaces s o pe s' :
  parse_simple_selector parse_rec namespaces s = (Ok (o, pe), s') →
  supported pe.
Proof.
  unfold parse_simple_selector, bind, TS.peek, TS.next, ret, raise, lift.
  intros H. destruct s as [|t1 s]; simpl in H; [by simplify_eq|].
  repeat (case_match; simplify_eq/=); try done.
  - by apply negb_false_iff.
  - by apply (legacy_names_are_supported lower_value).
Qed.

Lemma simple_selector_loop_supported fuel namespaces acc s l pe s' :
  simple_selector_loop parse_rec fuel namespaces acc s = (Ok (l, pe), s') →
  supported pe.
Proof.
  revert acc s. induction fuel as [|fuel IH]; intros acc s; [done|].
  cbn [simple_selector_loop]. unfold bind at 1.
  destruct (parse_simple_selector parse_rec namespaces s)
    as [[[o pe1]|e] s1] eqn:Hp; [|done].
  apply parse_simple_selector_supported in Hp.
  destruct o as [x|], pe1 as [pe1|]; unfold ret; intros H;
    try (by simplify_eq).
  by eapply IH.
Qed.

Lemma parse_compound_selector_result namespaces s compound pe s' :
  parse_compound_selector parse_rec namespaces s = (Ok (compound, pe), s') →
  supported pe ∧ combinators_of compound = [].
Proof.
  intros H.
  destruct (parse_compound_selector_shape parse_rec _ _ _ _ _ H) as [l ->].
  split; [|done]. revert H.
  unfold parse_compound_selector, bind, TS.remaining, TS.peek, ret, raise.
  destruct (parse_type_selector namespaces s) as [[ts|e] s1]; [|done].
  destruct (simple_selector_loop _ _ _ _ _) as [[[l' pe']|e] s2] eqn:Hloop;
    [|done].
  apply simple_selector_loop_supported in Hloop.
  destruct (_ || _); [|done]. by intros [= <- <- <-].
Qed.

Lemma selector_loop_result fuel namespaces relative initial_combinator
    result pseudo_element s selector s' :
  supported pseudo_element →
  Forall (λ c, c ∈ combinators) (combinators_of result) →
  selector_loop parse_rec fuel namespaces relative initial_combinator result
    pseudo_element s = (Ok selector, s') →
  ∃ tree pe,
    selector
    = (if relative then RelativeSelector initial_combinator (Selector tree pe)
       else Selector tree pe)
    ∧ supported pe
    ∧ Forall (λ c, c ∈ combinators) (combinators_of tree).
Proof.
  revert result pseudo_element s.
  induction fuel as [|fuel IH]; intros result pe s Hpe Hres; [done|].
  cbn [selector_loop]. unfold bind at 1.
  destruct (TS.skip_whitespace s) as [[hw|e] s1]; [|done].
  unfold bind at 1, TS.remaining at 1. unfold bind at 1.
  destruct (comment_loop _ _ _) as [[hw'|e] s2]; [|done].
  destruct pe as [pe|]; [intros [= <- <-]; eauto|].
  unfold bind at 1, TS.peek at 1.
  assert (∀ combinator s3,
    combinator ∈ combinators →
    bind (parse_compound_selector parse_rec namespaces) (λ r,
      let '(compound, pseudo_element) := r in
      selector_loop parse_rec fuel namespaces relative initial_combinator
        (CombinedSelector result combinator compound) pseudo_element) s3
    = (Ok selector, s') →
    ∃ tree pe,
      selector
      = (if relative
         then RelativeSelector initial_combinator (Selector tree pe)
         else Selector tree pe)
      ∧ supported pe
      ∧ Forall (λ c, c ∈ combinators) (combinators_of tree)) as Hcont.
  { intros c s3 Hc. unfold bind.
    destruct (parse_compound_selector parse_rec namespaces s3)
      as [[[compound pe]|e] s4] eqn:Hcomp; [|done].
    apply parse_compound_selector_result in Hcomp as [Hsup _].
    apply IH; [done|]. simpl. apply Forall_app. split; [done|].
    by constructor. }
  destruct (head s2) as [peek|]; [|intros [= <- <-]; eauto].
  destruct (tok_eq peek ","); [intros [= <- <-]; eauto|].
  destruct (tok_in peek _) eqn:Hin.
  - unfold bind at 1. destruct (TS.next s2) as [[nxt|e] s3]; [|done].
    apply Hcont. by apply combinator_token_value.
  - destruct hw'; [apply Hcont; set_solver | intros [= <- <-]; eauto].
Qed.

Lemma parse_selector_result namespaces relative s selector s' :
  parse_selector parse_rec namespaces relative s = (Ok selector, s') →
  supported (pseudo_element_of selector) ∧ selector_shape relative selector.
Proof.
  unfold parse_selector. unfold bind at 1.
  destruct (TS.skip_whitespace_and_comment s) as [[ws|e] s1]; [|done].
  unfold bind at 1.
  match goal with
  | |- context [(if relative then ?m else ?m') s1] =>
      assert (∀ ic s2, (if relative then m else m') s1 = (Ok ic, s2) →
                       ic ∈ combinators) as Hic;
      [|destruct ((if relative then m else m') s1) as [[ic|e] s2]; [|done]]
  end.
  { intros ic s2. destruct relative; [|intros [= <- <-]; set_solver].
    unfold bind at 1, TS.peek at 1. unfold bind at 1.
    destruct (head s1) as [peek|].
    - destruct (tok_in peek _) eqn:Hin.
      + unfold bind at 1. destruct (TS.next s1) as [[nxt|e] s3]; [|done].
        unfold ret at 1. unfold bind.
        destruct (TS.skip_whitespace_and_comment s3) as [[ws'|e] s4]; [|done].
        intros [= <- <-]. by apply combinator_token_value.
      + unfold ret at 1. unfold bind.
        destruct (TS.skip_whitespace_and_comment s1) as [[ws'|e] s4]; [|done].
        intros [= <- <-]. set_solver.
    - unfold ret at 1. unfold bind.
      destruct (TS.skip_whitespace_and_comment s1) as [[ws'|e] s4]; [|done].
      intros [= <- <-]. set_solver. }
  specialize (Hic ic s2 eq_refl).
  unfold bind at 1.
  destruct (parse_compound_selector parse_rec namespaces s2)
    as [[[result pe]|e] s3] eqn:Hc; [|done].
  apply parse_compound_selector_result in Hc as [Hsup Hcomb].
  unfold bind at 1, TS.remaining at 1. intros Hloop.
  apply selector_loop_result in Hloop as (tree & pe' & -> & Hpe & Hall);
    [|done|by rewrite Hcomb].
  by destruct relative.
Qed.

Lemma parse_loop_result fuel namespaces forgiving relative tokens :
  Forall (λ selector,
            supported (pseudo_element_of selector)
            ∧ selector_shape relative selector)
    (parse_loop parse_rec fuel namespaces forgiving relative tokens).1.
Proof.
  revert tokens. induction fuel as [|fuel IH]; intros tokens;
    cbn [parse_loop]; [by constructor|].
  destruct tokens as [|next tokens]; cbn [TS.next]; [by constructor|].
  destruct (tok_eq next ",").
  - destruct (parse_selector parse_rec namespaces relative tokens)
      as [[selector|e] tokens'] eqn:Hsel.
    + constructor; [by eapply parse_selector_result | apply IH].
    + destruct e; try by constructor.
      destruct (negb forgiving); [by constructor | apply IH].
  - destruct (negb forgiving); [by constructor | apply IH].
Qed.

Lemma parse_body_result input namespaces forgiving relative :
  Forall (λ selector,
            supported (pseudo_element_of selector)
            ∧ selector_shape relative selector)
    (parse_body parse_rec input namespaces forgiving relative).1.
Proof.
  unfold parse_body.
  destruct (parse_selector parse_rec namespaces relative input)
    as [[selector|e] tokens'] eqn:Hsel.
  - constructor; [by eapply parse_selector_result|]. apply parse_loop_result.
  - destruct e; try by constructor. destruct forgiving; by constructor.
Qed.

Lemma count_commas_suffix s' s :
  s' `suffix_of` s → count_commas s' ≤ count_commas s.
Proof.
  intros [p ->]. unfold count_commas.
  rewrite List.filter_app, length_app. lia.
Qed.

Lemma count_commas_cons t s :
  count_commas (t :: s) = (if tok_eq t "," then 1 else 0) + count_commas s.
Proof. unfold count_commas. simpl. by destruct (tok_eq t ","). Qed.

Lemma parse_loop_yields fuel namespaces forgiving relative tokens :
  length (parse_loop parse_rec fuel namespaces forgiving relative tokens).1
  ≤ count_commas tokens.
Proof.
  revert tokens. induction fuel as [|fuel IH]; intros tokens;
    cbn [parse_loop]; [simpl; lia|].
  destruct tokens as [|next tokens]; cbn [TS.next]; [simpl; lia|].
  rewrite count_commas_cons.
  pose proof (mono_parse_selector parse_rec namespaces relative tokens) as Hm.
  apply count_commas_suffix in Hm.
  destruct (tok_eq next ",").
  - destruct (parse_selector parse_rec namespaces relative tokens)
      as [[selector|e] tokens']; simpl in Hm.
    + specialize (IH tokens'). cbn [yield fst length]. lia.
    + destruct e; try (simpl; lia).
      destruct (negb forgiving); [simpl; lia|].
      specialize (IH tokens'). lia.
  - destruct (negb forgiving); [simpl; lia | apply IH].
Qed.

Lemma parse_body_yields input namespaces forgiving relative :
  length (parse_body parse_rec input namespaces forgiving relative).1
  ≤ S (count_commas input).
Proof.
  unfold parse_body.
  pose proof (mono_parse_selector parse_rec namespaces relative input) as Hm.
  apply count_commas_suffix in Hm.
  destruct (parse_selector parse_rec namespaces relative input)
    as [[selector|e] tokens']; simpl in Hm.
  - cbn [yield fst length].
    pose proof (parse_loop_yields (S (length tokens')) namespaces forgiving
                  relative tokens'). lia.
  - destruct e; try (simpl; lia). destruct forgiving; simpl; lia.
Qed.

End Yielded.

(** Every pseudo-element [parse] yields is one of
    [SUPPORTED_PSEUDO_ELEMENTS], whichever spelling it was written in. *)
Theorem yielded_pseudo_elements_are_supported
    input namespaces forgiving relative :
  Forall (λ selector, supported (pseudo_element_of selector))
    (parse input namespaces forgiving relative).1.
Proof.
  rewrite parse_unfold.
  eapply Forall_impl; [apply parse_body_result|]. by intros x [? _].
Qed.

(** Every selector [parse] yields is a [Selector], wrapped in a
    [RelativeSelector] exactly when [relative] is set; the combinator of
    the wrapper and those down the left spine of the tree are among [" "],
    [">"], ["+"] and ["~"]. *)
Theorem yielded_selectors_have_the_expected_shape
    input namespaces forgiving relative :
  Forall (selector_shape relative)
    (parse input namespaces forgiving relative).1.
Proof.
  rewrite parse_unfold.
  eapply Forall_impl; [apply parse_body_result|]. by intros x [_ ?].
Qed.

(** [parse] yields at most one selector per comma-separated branch: no more
    than one plus the number of comma tokens of the input. *)
Theorem parse_yields_at_most_one_selector_per_branch
    input namespaces forgiving relative :
  length (parse input namespaces forgiving relative).1
  ≤ S (count_commas input).
Proof. rewrite parse_unfold. apply parse_body_yields. Qed.

(** ** Strict against forgiving *)

Lemma parse_loop_strict_prefix parse_rec fuel namespaces relative tokens :
  (parse_loop parse_rec fuel namespaces false relative tokens).1
  `prefix_of` (parse_loop parse_rec fuel namespaces true relative tokens).1
  ∧ ((parse_loop parse_rec fuel namespaces false relative tokens).2 = None →
     parse_loop parse_rec fuel namespaces true relative tokens
     = parse_loop parse_rec fuel namespaces false relative tokens).
Proof.
  revert tokens. induction fuel as [|fuel IH]; intros tokens;
    cbn [parse_loop]; [done|].
  destruct tokens as [|next tokens]; cbn [TS.next]; [done|].
  destruct (tok_eq next ",").
  - destruct (parse_selector parse_rec namespaces relative tokens)
      as [[selector|e] tokens'].
    + destruct (IH tokens') as [Hpre Heq]. cbn [yield fst snd]. split.
      * by apply prefix_cons.
      * intros Hnone. by rewrite (Heq Hnone).
    + destruct e; cbn [negb fst snd]; (split; [apply prefix_nil | done]).
  - cbn [negb fst snd]. split; [apply prefix_nil | done].
Qed.

(** The two modes differ only from the first error on: what the strict
    parse yields is a prefix of what the forgiving parse yields on the same
    input, and when the strict parse ends without an exception the forgiving
    parse gives exactly the same result. *)
Theorem strict_parse_is_a_prefix_of_forgiving_parse
    input namespaces relative :
  (parse input namespaces false relative).1
  `prefix_of` (parse input namespaces true relative).1
  ∧ ((parse input namespaces false relative).2 = None →
     parse input namespaces true relative
     = parse input namespaces false relative).
Proof.
  rewrite !parse_unfold. unfold parse_body.
  destruct (parse_selector parse namespaces relative input)
    as [[selector|e] tokens'].
  - destruct (parse_loop_strict_prefix parse (S (length tokens')) namespaces
                relative tokens') as [Hpre Heq].
    cbn [yield fst snd]. split.
    + by apply prefix_cons.
    + intros Hnone. by rewrite (Heq Hnone).
  - destruct e; cbn [fst snd]; (split; [apply prefix_nil | done]).
Qed.

(** ** The lists of the logical combinators *)

(** The selectors stored by [:has()] are relative selectors and those
    stored by [:is()], [:where()] and [:not()] are plain ones; all have the
    shape of a yielded selector. *)
Theorem logical_combination_holds_selectors_of_its_mode
    tok namespaces name n :
  parse_logical_combination parse tok namespaces name = Ok n →
  Forall (selector_shape (String.eqb name "has")) (selector_list_of n).
Proof.
  unfold parse_logical_combination, logical_settings.
  assert (∀ forgiving relative,
    Forall (selector_shape relative)
      (List.filter
         (λ selector, bool_decide (pseudo_element_of selector = None))
         (parse (arguments_of tok) namespaces forgiving relative).1))
    as Hfilter.
  { intros forgiving relative.
    pose proof (parse_body_result parse (arguments_of tok) namespaces
                  forgiving relative) as Hall.
    rewrite <- parse_unfold in Hall.
    apply (Forall_impl _ (selector_shape relative)) in Hall;
      [|by intros x [_ ?]].
    induction Hall as [|x l Hx _ IH]; simpl; [constructor|].
    destruct (bool_decide _); [by constructor | done]. }
  destruct (String.eqb_spec name "is") as [->|_].
  { simpl. pose proof (Hfilter true false) as H.
    destruct (parse _ _ _ _) as [ys [e|]]; [done|]. by intros [= <-]. }
  destruct (String.eqb_spec name "where") as [->|_].
  { simpl. pose proof (Hfilter true false) as H.
    destruct (parse _ _ _ _) as [ys [e|]]; [done|]. by intros [= <-]. }
  destruct (String.eqb_spec name "not") as [->|_].
  { simpl. pose proof (Hfilter false false) as H.
    destruct (parse _ _ _ _) as [ys [e|]]; [done|]. by intros [= <-]. }
  destruct (String.eqb_spec name "has") as [->|_].
  { simpl. pose proof (Hfilter true true) as H.
    destruct (parse _ _ _ _) as [ys [e|]]; [done|]. by intros [= <-]. }
  by destruct (parse _ _ _ _) as [ys [e|]].
Qed.

Lemma logical_combination_holds_selectors_of_its_mode_witness :
  parse_logical_combination parse
    (fn "has" [lit ">"; TWhitespace; ident "a"]) ∅ "has"
  = Ok (RelationalSelector
          [RelativeSelector ">"
             (Selector (CompoundSelector [LocalNameSelector "a" "a"]) None)])
  ∧ Forall (selector_shape (String.eqb "has" "has"))
      (selector_list_of
         (RelationalSelector
            [RelativeSelector ">"
               (Selector (CompoundSelector [LocalNameSelector "a" "a"])
                  None)])).
Proof.
  assert (parse_logical_combination parse
            (fn "has" [lit ">"; TWhitespace; ident "a"]) ∅ "has"
          = Ok (RelationalSelector
                  [RelativeSelector ">"
                     (Selector (CompoundSelector [LocalNameSelector "a" "a"])
                        None)])) as H by (vm_compute; reflexivity).
  split; [exact H|].
  exact (logical_combination_holds_selectors_of_its_mode _ ∅ "has" _ H).
Defined.
